(** * Traversal of flattened preorder trees (jv/tree-algorithms.hpp)

    A shallow embedding of [jv::NodeTraits], of the fixture and the
    test cases of tests/tree-algorithms.cpp and of the evaluator of
    examples/polish-notation.cpp, with the properties of the four
    traversal operations, [getNextSibling], [recursiveTraversal],
    [ancestorsTraversal] and [evaluationTraversal], and of their two
    clients. *)

From Stdlib Require Import List ZArith Lia Bool.
From Stdlib Require String.
Import ListNotations.

(** ** Machine data *)

(** An iterator is a position in the sequence; [++node] is [S node]. *)
Definition iterator : Type := nat.

(** [std::size_t]: an unsigned 64-bit integer, kept as a [Z] in
    [0, 2^64); arithmetic on it wraps around. *)
Definition size_t : Type := Z.
Definition SIZE_MODULUS : Z := (2 ^ 64)%Z.
Definition to_size_t (z : Z) : size_t := (z mod SIZE_MODULUS)%Z.

(** ** A state and failure monad

    A computation reads and writes a state and may produce no result:
    an oracle or a callback that has no defined outcome (a dereference
    outside the sequence, an exception), or a recursion budget that is
    used up. *)
Definition M (St A : Type) : Type := St -> option (A * St).

Definition ret {St A} (a : A) : M St A := fun st => Some (a, st).

Definition bind {St A B} (c : M St A) (k : A -> M St B) : M St B :=
  fun st => match c st with
            | Some (a, st') => k a st'
            | None => None
            end.

Definition fail {St A} : M St A := fun _ => None.

Definition lift_option {St A} (o : option A) : M St A :=
  fun st => match o with
            | Some a => Some (a, st)
            | None => None
            end.

Declare Scope traversal_scope.
Delimit Scope traversal_scope with trav.
Notation "x <- c ;; k" := (bind c (fun x => k))
  (at level 61, c at next level, right associativity) : traversal_scope.
Notation "c ;;; k" := (bind c (fun _ => k))
  (at level 61, right associativity) : traversal_scope.
Local Open Scope traversal_scope.

(** ** std::vector operations used by the traversals *)

(** [v.resize(n)]: truncates to [n] elements, or pads with
    value-initialised elements up to [n]. *)
Definition resize {A} (init : A) (n : nat) (v : list A) : list A :=
  firstn n v ++ repeat init (n - length v).

(** [v.push_back(x)] and [v.emplace_back(x)]. *)
Definition push_back {A} (v : list A) (x : A) : list A := v ++ [x].

(** [v.pop_back()]. *)
Definition pop_back {A} (v : list A) : list A := removelast v.

(** The view [v.data() + i, v.data() + v.size()). *)
Definition window {A} (i : nat) (v : list A) : list A := skipn i v.

(** ** jv::NodeTraits *)

Section NodeTraits.

(** [Crtp::getChildrenCount]: [None] where the oracle has no defined
    result (an iterator that may not be dereferenced). *)
Variable getChildrenCount : iterator -> option size_t.

(** The do-while loop of [getNextSibling]; [fuel] bounds the number of
    iterations. *)
Fixpoint getNextSibling_loop (fuel : nat) (remaining_nodes : size_t)
         (node : iterator) : option iterator :=
  match fuel with
  | O => None
  | S fuel' =>
      match getChildrenCount node with
      | None => None
      | Some count =>
          let remaining_nodes := to_size_t (remaining_nodes + count - 1)%Z in
          let node := S node in
          if (0 <? remaining_nodes)%Z
          then getNextSibling_loop fuel' remaining_nodes node
          else Some node
      end
  end.

Definition getNextSibling (fuel : nat) (node : iterator) : option iterator :=
  getNextSibling_loop fuel 1%Z node.

(** The same loop, counting its [++node] steps. *)
Fixpoint getNextSibling_steps_loop (fuel : nat) (remaining_nodes : size_t)
         (node : iterator) (steps : nat) : option (iterator * nat) :=
  match fuel with
  | O => None
  | S fuel' =>
      match getChildrenCount node with
      | None => None
      | Some count =>
          let remaining_nodes := to_size_t (remaining_nodes + count - 1)%Z in
          let node := S node in
          let steps := S steps in
          if (0 <? remaining_nodes)%Z
          then getNextSibling_steps_loop fuel' remaining_nodes node steps
          else Some (node, steps)
      end
  end.

Definition getNextSibling_steps (fuel : nat) (node : iterator)
  : option (iterator * nat) :=
  getNextSibling_steps_loop fuel 1%Z node 0.

(** [recursiveTraversal]: the callback [func] stands for [func(_, func)],
    the callable already applied to itself. The counter of the for loop
    is a [size_t] counted down to zero. *)
Section RecursiveTraversal.
Context {St : Type}.
Variable func : iterator -> M St iterator.

Fixpoint recursiveTraversal_loop (nb_children : nat) (node : iterator)
  : M St iterator :=
  match nb_children with
  | O => ret node
  | S nb_children' =>
      node' <- func node ;;
      recursiveTraversal_loop nb_children' node'
  end.

Definition recursiveTraversal (node : iterator) : M St iterator :=
  nb_children <- lift_option (getChildrenCount node) ;;
  recursiveTraversal_loop (Z.to_nat nb_children) (S node).
End RecursiveTraversal.

(** [ancestorsTraversal]: the state is the vector [ancestors] and the
    state [State] of the visitor; [func] receives the view of the whole
    vector. [fuel] bounds the depth of the recursion of the lambda. *)
Section AncestorsTraversal.
Context {State : Type}.
Variable func : list iterator -> State -> option State.

Definition call_visitor : M (list iterator * State) unit :=
  fun '(ancestors, s) =>
    match func ancestors s with
    | Some s' => Some (tt, (ancestors, s'))
    | None => None
    end.

Definition ancestors_push (node : iterator)
  : M (list iterator * State) unit :=
  fun '(ancestors, s) => Some (tt, (push_back ancestors node, s)).

Definition ancestors_pop : M (list iterator * State) unit :=
  fun '(ancestors, s) => Some (tt, (pop_back ancestors, s)).

Fixpoint ancestors_visit (fuel : nat) (node : iterator)
  : M (list iterator * State) iterator :=
  match fuel with
  | O => fail
  | S fuel' =>
      ancestors_push node ;;;
      call_visitor ;;;
      next <- recursiveTraversal (ancestors_visit fuel') node ;;
      ancestors_pop ;;;
      ret next
  end.

Definition ancestorsTraversal_run (fuel : nat) (root : iterator)
  : M (list iterator * State) iterator :=
  ancestors_push root ;;;
  call_visitor ;;;
  recursiveTraversal (ancestors_visit fuel) root.

Definition ancestorsTraversal (fuel : nat) (root : iterator) (s : State)
  : option (iterator * State) :=
  match ancestorsTraversal_run fuel root ([], s) with
  | Some (next, (_, s')) => Some (next, s')
  | None => None
  end.
End AncestorsTraversal.

(** [evaluationTraversal]: the state is the vector [values] and the
    state [State] of the evaluator. [fuel] bounds the depth of the recursion
    of the lambda. *)
Section EvaluationTraversal.
Context {Value State : Type}.
(** A value-initialised [Value], what [resize] pads with. *)
Variable value_init : Value.
Variable func : iterator -> list Value -> State -> option (Value * State).

Definition values_size : M (list Value * State) nat :=
  fun '(values, s) => Some (length values, (values, s)).

Definition call_evaluator (node : iterator) (begin_index : nat)
  : M (list Value * State) Value :=
  fun '(values, s) =>
    match func node (window begin_index values) s with
    | Some (v, s') => Some (v, (values, s'))
    | None => None
    end.

Definition values_resize (n : nat) : M (list Value * State) unit :=
  fun '(values, s) => Some (tt, (resize value_init n values, s)).

Definition values_emplace_back (v : Value) : M (list Value * State) unit :=
  fun '(values, s) => Some (tt, (push_back values v, s)).

Fixpoint evaluate_node (fuel : nat) (node : iterator)
  : M (list Value * State) iterator :=
  match fuel with
  | O => fail
  | S fuel' =>
      begin_index <- values_size ;;
      next <- recursiveTraversal (evaluate_node fuel') node ;;
      r <- call_evaluator node begin_index ;;
      values_resize begin_index ;;;
      values_emplace_back r ;;;
      ret next
  end.

(** The whole call, with the final state of [values] and of the
    evaluator kept. *)
Definition evaluationTraversal_run (fuel : nat) (root : iterator)
  : M (list Value * State) (Value * iterator) :=
  next <- recursiveTraversal (evaluate_node fuel) root ;;
  v <- call_evaluator root 0 ;;
  ret (v, next).

Definition evaluationTraversal (fuel : nat) (root : iterator) (s : State)
  : option ((Value * iterator) * State) :=
  match evaluationTraversal_run fuel root ([], s) with
  | Some (r, (_, s')) => Some (r, s')
  | None => None
  end.
End EvaluationTraversal.

End NodeTraits.

(** ** The trees that a sequence flattens

    The shape of a tree: a node is the list of its children, left to
    right. The sequence stores the nodes in preorder; a node at handle
    [n] has its first child at [S n] and each next child right after the
    subtree of the one before. *)

#[warnings="-register-all"] Inductive tree : Type :=
| Node (children : list tree).

Definition children (t : tree) : list tree :=
  match t with Node cs => cs end.

(** Number of entries of the subtree run of a node. *)
Fixpoint size (t : tree) : nat :=
  match t with
  | Node cs => S (list_sum (map size cs))
  end.

Definition forest_size (ts : list tree) : nat := list_sum (map size ts).

(** Number of nodes on the longest path from the node down to a leaf. *)
Fixpoint depth (t : tree) : nat :=
  match t with
  | Node cs => S (list_max (map depth cs))
  end.

Section ForestMap.
Context {A : Type}.
Variable f : iterator -> tree -> A.

(** [f] at each tree of a forest flattened from handle [n] on. *)
Fixpoint forest_map (n : iterator) (ts : list tree) : list A :=
  match ts with
  | [] => []
  | t :: ts' => f n t :: forest_map (n + size t) ts'
  end.
End ForestMap.

(** The handle of each tree of a forest flattened from handle [n] on. *)
Definition forest_handles (n : iterator) (ts : list tree) : list iterator :=
  forest_map (fun p _ => p) n ts.

(** The handles of the nodes of a subtree with their depth, the walk's
    root having depth [d], in preorder. *)
Fixpoint preorder_depths (d : nat) (n : iterator) (t : tree)
  : list (iterator * nat) :=
  match t with
  | Node cs => (n, d) :: concat (forest_map (preorder_depths (S d)) (S n) cs)
  end.

(** The ancestor stacks of the nodes of a subtree, in preorder, [stack]
    being the stack of the parent of the subtree's root. *)
Fixpoint ancestor_stacks (stack : list iterator) (n : iterator) (t : tree)
  : list (list iterator) :=
  match t with
  | Node cs =>
      (stack ++ [n])
        :: concat (forest_map (ancestor_stacks (stack ++ [n])) (S n) cs)
  end.

(** The nodes of a subtree, each handle with the subtree it roots,
    children before their parent. *)
Fixpoint postorder (n : iterator) (t : tree) : list (iterator * tree) :=
  match t with
  | Node cs => concat (forest_map postorder (S n) cs) ++ [(n, Node cs)]
  end.

Section WellFormed.
Variable getChildrenCount : iterator -> option size_t.

Definition count_is (n : iterator) (k : nat) : bool :=
  match getChildrenCount n with
  | Some c => (c =? Z.of_nat k)%Z
  | None => false
  end.

(** The oracle describes the tree [t] flattened from handle [n] on:
    every node reports the number of its children. *)
Fixpoint flattened_at (n : iterator) (t : tree) : bool :=
  match t with
  | Node cs =>
      count_is n (length cs)
      && forallb (fun b : bool => b) (forest_map flattened_at (S n) cs)
  end.

Definition forest_flattened_at (n : iterator) (ts : list tree) : bool :=
  forallb (fun b : bool => b) (forest_map flattened_at n ts).

(** A well-formed flattened preorder tree at handle [n]: the oracle
    describes it, and its number of entries is a [size_t], as the
    length of any stored sequence is. *)
Definition well_formed (n : iterator) (t : tree) : bool :=
  flattened_at n t && (Z.of_nat (size t) <? SIZE_MODULUS)%Z.
End WellFormed.

(** ** Reference semantics of the evaluation fold *)

Section EvaluationSpec.
Context {Value State : Type}.

Section Forest.
Variable ev : iterator -> tree -> State -> option (Value * State).

(** Left to right over a forest, threading the evaluator's state. *)
Fixpoint eval_forest (n : iterator) (ts : list tree) (s : State)
  : option (list Value * State) :=
  match ts with
  | [] => Some ([], s)
  | t :: ts' =>
      match ev n t s with
      | Some (v, s1) =>
          match eval_forest (n + size t) ts' s1 with
          | Some (vs, s2) => Some (v :: vs, s2)
          | None => None
          end
      | None => None
      end
  end.
End Forest.

Variable func : iterator -> list Value -> State -> option (Value * State).

(** The value of a node: the evaluator at the node's handle and the
    values of its children. *)
Fixpoint eval_tree (n : iterator) (t : tree) (s : State)
  : option (Value * State) :=
  match t with
  | Node cs =>
      match eval_forest eval_tree (S n) cs s with
      | Some (vs, s1) => func n vs s1
      | None => None
      end
  end.
End EvaluationSpec.

Section PureEvaluator.
Context {Value : Type}.
Variable f : iterator -> list Value -> Value.

(** A side-effect free evaluator. *)
Definition pure_evaluator (node : iterator) (w : list Value) (s : unit)
  : option (Value * unit) :=
  Some (f node w, s).

(** The same evaluator, recording each invocation: the handle and the
    window it receives. *)
Definition traced (node : iterator) (w : list Value)
           (log : list (iterator * list Value))
  : option (Value * list (iterator * list Value)) :=
  Some (f node w, log ++ [(node, w)]).

(** [value(node) = f(node, [value(c) for c in children])]. *)
Fixpoint value (n : iterator) (t : tree) : Value :=
  match t with
  | Node cs => f n (forest_map value (S n) cs)
  end.

Definition child_values (n : iterator) (t : tree) : list Value :=
  forest_map value (S n) (children t).

(** One invocation per node, children before their parent. *)
Fixpoint invocations (n : iterator) (t : tree)
  : list (iterator * list Value) :=
  match t with
  | Node cs =>
      concat (forest_map invocations (S n) cs)
        ++ [(n, forest_map value (S n) cs)]
  end.
End PureEvaluator.

(** A visitor recording the view it receives at each invocation. *)
Definition recording (view : list iterator) (log : list (list iterator))
  : option (list (list iterator)) :=
  Some (log ++ [view]).

(** The visitor applied to a list of views, first to last. *)
Fixpoint visit_all {State} (func : list iterator -> State -> option State)
         (views : list (list iterator)) (s : State) : option State :=
  match views with
  | [] => Some s
  | view :: views' =>
      match func view s with
      | Some s' => visit_all func views' s'
      | None => None
      end
  end.

(** The children of the node at handle [n], each with its handle. *)
Definition children_at (n : iterator) (t : tree) : list (iterator * tree) :=
  forest_map pair (S n) (children t).

(** A callback of [recursiveTraversal] recording the handle it receives. *)
Definition logged {St} (func : iterator -> M St iterator) (node : iterator)
  : M (St * list iterator) iterator :=
  fun '(st, log) =>
    match func node st with
    | Some (next, st') => Some (next, (st', log ++ [node]))
    | None => None
    end.

(** ** The fixture of tests/tree-algorithms.cpp *)

Module Fixture.
Import String.
Import ListNotations.

(** [int]: a signed 32-bit integer; an addition that overflows has no
    defined result. *)
Definition INT_MIN : Z := (- 2 ^ 31)%Z.
Definition INT_MAX : Z := (2 ^ 31 - 1)%Z.

Definition int_add (a b : Z) : option Z :=
  let r := (a + b)%Z in
  if (INT_MIN <=? r)%Z && (r <=? INT_MAX)%Z then Some r else None.

(** [std::accumulate(it, end, init)] over [int]. *)
Fixpoint accumulate (vals : list Z) (init : Z) : option Z :=
  match vals with
  | [] => Some init
  | v :: vals' =>
      match int_add init v with
      | Some acc => accumulate vals' acc
      | None => None
      end
  end.

(** [using Entry = std::variant<File, Directory>]. *)
Inductive Entry : Type :=
| File (name : String.string) (size : Z)
| Directory (name : String.string) (nb_children : Z).

Definition entry_name (e : Entry) : String.string :=
  match e with
  | File name _ => name
  | Directory name _ => name
  end.

Definition entries : list Entry :=
  [ Directory "TreeAlgorithms"%string 3;
      File "README.md"%string 100;
      Directory "src"%string 2;
        Directory "jv"%string 1;
          File "tree-algorithms.hpp"%string 800;
        File "main.cpp"%string 400;
      File "LICENSE"%string 200 ].

(** [entries.end()]. *)
Definition entries_end : iterator := List.length entries.

Module EntryTraits.
(** An iterator is dereferenced with [nth_error]; the [int]
    [nb_children] is converted to [std::size_t]. *)
Definition getChildrenCount (it : iterator) : option size_t :=
  match nth_error entries it with
  | Some (Directory _ nb_children) => Some (to_size_t nb_children)
  | Some (File _ _) => Some 0%Z
  | None => None
  end.
End EntryTraits.

(** The evaluator of TEST_CASE("evaluationTraversal"); a [REQUIRE] that
    fails ends the test, so the evaluator has no result there. *)
Definition sum_of_sizes (node : iterator) (vals : list Z) (s : unit)
  : option (Z * unit) :=
  match nth_error entries node with
  | Some (File _ size) =>
      match vals with
      | [] => Some (size, s)
      | _ :: _ => None
      end
  | Some (Directory _ _) =>
      match accumulate vals 0%Z with
      | Some total => Some (total, s)
      | None => None
      end
  | None => None
  end.

(** The visitor of TEST_CASE("ancestorsTraversal"): joins the names of
    the entries of the view and appends the string to [result]. *)
Fixpoint join_names (view : list iterator) (str : String.string)
  : option String.string :=
  match view with
  | [] => Some str
  | it :: view' =>
      match nth_error entries it with
      | Some (Directory name _) =>
          join_names view' (str ++ name ++ "/")%string
      | Some (File name _) => join_names view' (str ++ name)%string
      | None => None
      end
  end.

Definition collect_paths (view : list iterator) (result : list String.string)
  : option (list String.string) :=
  match join_names view String.EmptyString with
  | Some str => Some (result ++ [str])
  | None => None
  end.

(** The [expected] vector of TEST_CASE("ancestorsTraversal"). *)
Definition expected_paths : list String.string :=
  [ "TreeAlgorithms/";
    "TreeAlgorithms/README.md";
    "TreeAlgorithms/src/";
    "TreeAlgorithms/src/jv/";
    "TreeAlgorithms/src/jv/tree-algorithms.hpp";
    "TreeAlgorithms/src/main.cpp";
    "TreeAlgorithms/LICENSE" ]%string.

(** The shape of the fixture:
    Directory(3){File, Directory(2){Directory(1){File}, File}, File}. *)
Definition leaf : tree := Node [].
Definition fixture_tree : tree :=
  Node [leaf; Node [Node [leaf]; leaf]; leaf].

End Fixture.

(** ** The sibling loop of TEST_CASE("getNextSibling") *)

(** A callback applied to a list of handles, first to last. *)
Fixpoint visit_each {State} (visit : iterator -> State -> option State)
         (handles : list iterator) (s : State) : option State :=
  match handles with
  | [] => Some s
  | h :: handles' =>
      match visit h s with
      | Some s' => visit_each visit handles' s'
      | None => None
      end
  end.

(** [for (; it != end; it = getNextSibling(it)) visit(it);] where [fuel]
    bounds the number of tests of the loop condition and [skip_fuel] the
    iterations of each [getNextSibling]. *)
Fixpoint for_each_sibling {State}
         (getChildrenCount : iterator -> option size_t)
         (visit : iterator -> State -> option State)
         (skip_fuel fuel : nat) (it end_ : iterator) (s : State)
  : option State :=
  match fuel with
  | O => None
  | S fuel' =>
      if it =? end_ then Some s
      else
        match visit it s with
        | Some s' =>
            match getNextSibling getChildrenCount skip_fuel it with
            | Some it' =>
                for_each_sibling getChildrenCount visit skip_fuel fuel'
                  it' end_ s'
            | None => None
            end
        | None => None
        end
  end.

(** The body of the loop of the test: [result.push_back(value.name)]. *)
Definition push_name (it : iterator) (result : list String.string)
  : option (list String.string) :=
  match nth_error Fixture.entries it with
  | Some e => Some (result ++ [Fixture.entry_name e])
  | None => None
  end.

(** ** examples/polish-notation.cpp *)

Module PolishNotation.
Import Ascii.
Import String.
Import ListNotations.

(** A [std::string_view]: the characters it views. *)
Definition string_view : Type := list ascii.

(** The argument [" \r\t\n"] of the two searches of [split_tokens]. *)
Definition whitespace : list ascii := [" "; "013"; "009"; "010"]%char.

Definition in_set (set : list ascii) (c : ascii) : bool :=
  existsb (Ascii.eqb c) set.

(** [str.find_first_not_of(set)]: [None] is [npos]. *)
Fixpoint find_first_not_of (str : string_view) (set : list ascii)
  : option nat :=
  match str with
  | [] => None
  | c :: str' =>
      if in_set set c
      then option_map S (find_first_not_of str' set)
      else Some 0
  end.

(** [str.find_first_of(set)]: [None] is [npos]. *)
Fixpoint find_first_of (str : string_view) (set : list ascii) : option nat :=
  match str with
  | [] => None
  | c :: str' =>
      if in_set set c
      then Some 0
      else option_map S (find_first_of str' set)
  end.

(** [std::min(pos, size)], [npos] being the largest [size_t]. *)
Definition min_pos (pos : option nat) (size : nat) : nat :=
  match pos with
  | Some i => Nat.min i size
  | None => size
  end.

Definition remove_prefix (n : nat) (str : string_view) : string_view :=
  skipn n str.

Definition substr (str : string_view) (pos n : nat) : string_view :=
  firstn n (skipn pos str).

(** The [while (true)] loop of [split_tokens]; [fuel] bounds the number
    of its iterations. *)
Fixpoint split_tokens_loop (fuel : nat) (str : string_view)
         (result : list string_view) : option (list string_view) :=
  match fuel with
  | O => None
  | S fuel' =>
      let str :=
        remove_prefix
          (min_pos (find_first_not_of str whitespace) (List.length str)) str
      in
      match str with
      | [] => Some result
      | _ :: _ =>
          let token_end :=
            min_pos (find_first_of str whitespace) (List.length str) in
          let result := push_back result (substr str 0 token_end) in
          let str := remove_prefix token_end str in
          split_tokens_loop fuel' str result
      end
  end.

(** Every iteration but the last removes at least one character, so one
    more iteration than [str] has characters is enough. *)
Definition split_tokens (str : string_view) : option (list string_view) :=
  split_tokens_loop (S (List.length str)) str [].

(** [enum Op { Add, Sub, Mult, Div, Sqrt, Pow }]. *)
Inductive Op : Type := Add | Sub | Mult | Div | Sqrt | Pow.

(** [static_cast<int>(operation)]. *)
Definition Op_to_int (operation : Op) : nat :=
  match operation with
  | Add => 0 | Sub => 1 | Mult => 2 | Div => 3 | Sqrt => 4 | Pow => 5
  end.

(** [static_cast<Op>(index)], for the indices of [tokens]. *)
Definition Op_of_int (index : nat) : option Op :=
  match index with
  | 0 => Some Add | 1 => Some Sub | 2 => Some Mult | 3 => Some Div
  | 4 => Some Sqrt | 5 => Some Pow
  | _ => None
  end.

(** The array [tokens] of the constructor of [Operation]. *)
Definition tokens : list string_view :=
  map list_ascii_of_string ["+"; "-"; "x"; "/"; "sqrt"; "pow"]%string.

Definition string_view_eqb (a b : string_view) : bool :=
  if list_eq_dec ascii_dec a b then true else false.

(** [std::find(begin, end, token) - begin]; [None] at [end]. *)
Fixpoint find_token (table : list string_view) (token : string_view)
  : option nat :=
  match table with
  | [] => None
  | entry :: table' =>
      if string_view_eqb entry token
      then Some 0
      else option_map S (find_token table' token)
  end.

(** The constructor [Operation(token)]; [None] where it throws
    [std::invalid_argument]. *)
Definition make_Operation (token : string_view) : option Op :=
  match find_token tokens token with
  | Some index => Op_of_int index
  | None => None
  end.

(** The array [nb_children] of [Operation::getNbChildren]. *)
Definition nb_children : list Z := [2; 2; 2; 2; 1; 2]%Z.

(** The arithmetic of [double] and [std::strtod] are parameters:
    [strtod token] is the value read and the number of characters of the
    token it consumed. A token ends where the expression ends or at a
    whitespace, which ends a number too, so the characters after the
    token have no part in it. *)
Record Arithmetic : Type := {
  double : Type;
  zero : double;
  plus : double -> double -> double;
  minus : double -> double -> double;
  times : double -> double -> double;
  divide : double -> double -> double;
  sqrt : double -> double;
  pow : double -> double -> double;
  strtod : string_view -> double * nat
}.

Section Nodes.
Variable F : Arithmetic.

(** [struct Number : Node] and [struct Operation : Node]. *)
Inductive Node : Type :=
| Number (value : double F)
| Operation (operation : Op).

Definition getNbChildren (node : Node) : Z :=
  match node with
  | Number _ => 0%Z
  | Operation operation => nth (Op_to_int operation) nb_children 0%Z
  end.

(** [it[0]] and [it[1]] of [getValue]: a read past the end of the window
    has no result. *)
Definition unary (f : double F -> double F) (it : list (double F))
  : option (double F) :=
  match nth_error it 0 with
  | Some a => Some (f a)
  | None => None
  end.

Definition binary (f : double F -> double F -> double F)
           (it : list (double F)) : option (double F) :=
  match nth_error it 0, nth_error it 1 with
  | Some a, Some b => Some (f a b)
  | _, _ => None
  end.

(** [getValue]: the asserts are compiled out (the file builds only with
    NDEBUG, [getNbNodes] having no declaration), and [default] is not
    reached by a value of the enumeration. *)
Definition getValue (node : Node) (it : list (double F))
  : option (double F) :=
  match node with
  | Number value => Some value
  | Operation operation =>
      match operation with
      | Add => binary (plus F) it
      | Sub => binary (minus F) it
      | Mult => binary (times F) it
      | Div => binary (divide F) it
      | Sqrt => unary (sqrt F) it
      | Pow => binary (pow F) it
      end
  end.

(** [token_to_node]: a number when [strtod] consumes the whole token,
    an operation otherwise. *)
Definition token_to_node (token : string_view) : option Node :=
  let '(value, consumed) := strtod F token in
  if consumed =? List.length token
  then Some (Number value)
  else option_map Operation (make_Operation token).

(** [std::transform] with a function that may throw. *)
Fixpoint transform (l : list string_view) : option (list Node) :=
  match l with
  | [] => Some []
  | token :: l' =>
      match token_to_node token with
      | Some node =>
          match transform l' with
          | Some nodes => Some (node :: nodes)
          | None => None
          end
      | None => None
      end
  end.

Definition MathTree : Type := list Node.

Definition parse_expression (expression : string_view) : option MathTree :=
  match split_tokens expression with
  | Some l => transform l
  | None => None
  end.

(** [NodeTraits::getChildrenCount]: the [int] of [getNbChildren]
    converted to [std::size_t]. *)
Definition getChildrenCount (tree : MathTree) (it : iterator)
  : option size_t :=
  match nth_error tree it with
  | Some node => Some (to_size_t (getNbChildren node))
  | None => None
  end.

(** The lambda handed to [evaluationTraversal]. *)
Definition node_value (tree : MathTree) (node : iterator)
           (it : list (double F)) (s : unit) : option (double F * unit) :=
  match nth_error tree node with
  | Some n =>
      match getValue n it with
      | Some v => Some (v, s)
      | None => None
      end
  | None => None
  end.

(** [evaluate(MathTree const&)]; [fuel] bounds the depth of the recursion
    of the traversal. *)
Definition evaluate (fuel : nat) (tree : MathTree) : option (double F) :=
  match evaluationTraversal (getChildrenCount tree) (zero F)
          (node_value tree) fuel 0 tt with
  | Some ((value, _), _) => Some value
  | None => None
  end.

(** [evaluate(std::string_view)]. *)
Definition evaluate_expression (fuel : nat) (expression : string_view)
  : option (double F) :=
  match parse_expression expression with
  | Some tree => evaluate fuel tree
  | None => None
  end.
End Nodes.

Arguments Number {F} value.
Arguments Operation {F} operation.
Arguments getNbChildren {F} node.
Arguments getValue {F} node it.
Arguments getChildrenCount {F} tree it.
Arguments node_value {F} tree node it s.

(** The two expressions of [main]. *)
Definition expression1 : string_view :=
  list_ascii_of_string "- x 3 5 / 8 2".
Definition expression2 : string_view :=
  list_ascii_of_string "sqrt + pow 3 2 pow 4 2".

(** The tokens of the first expression, and the blank between them. *)
Definition expression1_tokens : list string_view :=
  map list_ascii_of_string ["-"; "x"; "3"; "5"; "/"; "8"; "2"]%string.
Definition blank : string_view := list_ascii_of_string " ".

(** An arithmetic to run the definitions on: exact integers in place of
    [double], and a [strtod] that reads decimal digits. *)
Definition digit_value (c : ascii) : option Z :=
  let n := nat_of_ascii c in
  if (48 <=? n) && (n <=? 57) then Some (Z.of_nat (n - 48)) else None.

Fixpoint read_digits (str : string_view) (value : Z) (consumed : nat)
  : Z * nat :=
  match str with
  | [] => (value, consumed)
  | c :: str' =>
      match digit_value c with
      | Some d => read_digits str' (10 * value + d)%Z (S consumed)
      | None => (value, consumed)
      end
  end.

Definition integers : Arithmetic := {|
  double := Z;
  zero := 0%Z;
  plus := Z.add;
  minus := Z.sub;
  times := Z.mul;
  divide := Z.div;
  sqrt := Z.sqrt;
  pow := Z.pow;
  strtod := fun token => read_digits token 0%Z 0
|}.

End PolishNotation.

(** ** Expressions in prefix notation

    What an expression of the example stands for: a literal, a square
    root, or a binary operation, written operator first. *)

(** The longest prefix of whitespace dropped, and the longest prefix
    free of whitespace. *)
Definition is_space (c : Ascii.ascii) : bool :=
  PolishNotation.in_set PolishNotation.whitespace c.

Fixpoint drop_spaces (str : list Ascii.ascii) : list Ascii.ascii :=
  match str with
  | [] => []
  | c :: str' => if is_space c then drop_spaces str' else str
  end.

Fixpoint take_word (str : list Ascii.ascii) : list Ascii.ascii :=
  match str with
  | [] => []
  | c :: str' => if is_space c then [] else c :: take_word str'
  end.

Fixpoint drop_word (str : list Ascii.ascii) : list Ascii.ascii :=
  match str with
  | [] => []
  | c :: str' => if is_space c then str else drop_word str'
  end.

(** A token: at least one character, none of them a whitespace. *)
Definition is_token (t : list Ascii.ascii) : bool :=
  match t with
  | [] => false
  | _ :: _ => forallb (fun c => negb (is_space c)) t
  end.

(** A separator: at least one character, all of them whitespace. *)
Definition is_separator (sep : list Ascii.ascii) : bool :=
  match sep with
  | [] => false
  | _ :: _ => forallb is_space sep
  end.

(** What follows a token: nothing, or a whitespace. *)
Definition at_boundary (rest : list Ascii.ascii) : Prop :=
  match rest with
  | [] => True
  | c :: _ => is_space c = true
  end.

(** The tokens, one separator between two of them. *)
Fixpoint unwords (sep : list Ascii.ascii) (l : list (list Ascii.ascii))
  : list Ascii.ascii :=
  match l with
  | [] => []
  | [t] => t
  | t :: l' => t ++ sep ++ unwords sep l'
  end.

Inductive BinaryOp : Type := BAdd | BSub | BMult | BDiv | BPow.

Definition Op_of_BinaryOp (op : BinaryOp) : PolishNotation.Op :=
  match op with
  | BAdd => PolishNotation.Add
  | BSub => PolishNotation.Sub
  | BMult => PolishNotation.Mult
  | BDiv => PolishNotation.Div
  | BPow => PolishNotation.Pow
  end.

(** The token of an operation in the array [tokens]. *)
Definition token_of_Op (op : PolishNotation.Op) : list Ascii.ascii :=
  nth (PolishNotation.Op_to_int op) PolishNotation.tokens [].

Section Expressions.
Variable F : PolishNotation.Arithmetic.

Inductive expr : Type :=
| Literal (token : list Ascii.ascii) (value : PolishNotation.double F)
| Root (e : expr)
| Binary (op : BinaryOp) (l r : expr).

Definition apply_BinaryOp (op : BinaryOp)
  : PolishNotation.double F -> PolishNotation.double F
    -> PolishNotation.double F :=
  match op with
  | BAdd => PolishNotation.plus F
  | BSub => PolishNotation.minus F
  | BMult => PolishNotation.times F
  | BDiv => PolishNotation.divide F
  | BPow => PolishNotation.pow F
  end.

Fixpoint denote (e : expr) : PolishNotation.double F :=
  match e with
  | Literal _ value => value
  | Root e' => PolishNotation.sqrt F (denote e')
  | Binary op l r => apply_BinaryOp op (denote l) (denote r)
  end.

(** The nodes of an expression, operator first. *)
Fixpoint prefix_nodes (e : expr) : list (PolishNotation.Node F) :=
  match e with
  | Literal _ value => [PolishNotation.Number value]
  | Root e' =>
      PolishNotation.Operation PolishNotation.Sqrt :: prefix_nodes e'
  | Binary op l r =>
      PolishNotation.Operation (Op_of_BinaryOp op)
        :: prefix_nodes l ++ prefix_nodes r
  end.

(** The tokens of an expression, operator first. *)
Fixpoint prefix_tokens (e : expr) : list (list Ascii.ascii) :=
  match e with
  | Literal token _ => [token]
  | Root e' => token_of_Op PolishNotation.Sqrt :: prefix_tokens e'
  | Binary op l r =>
      token_of_Op (Op_of_BinaryOp op)
        :: prefix_tokens l ++ prefix_tokens r
  end.

(** The shape of an expression. *)
Fixpoint shape (e : expr) : tree :=
  match e with
  | Literal _ _ => Node []
  | Root e' => Node [shape e']
  | Binary _ l r => Node [shape l; shape r]
  end.

(** Every literal is written as a token that [strtod] reads whole, to
    the value of the literal. *)
Fixpoint literals_read (e : expr) : Prop :=
  match e with
  | Literal token value =>
      is_token token = true
      /\ PolishNotation.strtod F token = (value, length token)
  | Root e' => literals_read e'
  | Binary _ l r => literals_read l /\ literals_read r
  end.

(** [strtod] reads none of the tokens of the operations as a number. *)
Definition operations_apart : Prop :=
  forall token,
    In token PolishNotation.tokens ->
    snd (PolishNotation.strtod F token) <> length token.
End Expressions.

Arguments Literal {F} token value.
Arguments Root {F} e.
Arguments Binary {F} op l r.
Arguments denote {F} e.
Arguments prefix_nodes {F} e.
Arguments prefix_tokens {F} e.
Arguments shape {F} e.
Arguments literals_read {F} e.

(** The two expressions of [main], over the integers. *)
Module MainExpressions.
Import String.

Definition literal (token : string) (value : Z)
  : expr PolishNotation.integers :=
  Literal (F := PolishNotation.integers) (list_ascii_of_string token) value.

Definition tree1 : expr PolishNotation.integers :=
  Binary BSub
    (Binary BMult (literal "3" 3%Z) (literal "5" 5%Z))
    (Binary BDiv (literal "8" 8%Z) (literal "2" 2%Z)).

Definition tree2 : expr PolishNotation.integers :=
  Root
    (Binary BAdd
       (Binary BPow (literal "3" 3%Z) (literal "2" 2%Z))
       (Binary BPow (literal "4" 4%Z) (literal "2" 2%Z))).

End MainExpressions.

(** ** Forests and their layout *)

Lemma tree_induction (P : tree -> Prop) :
  (forall cs, Forall P cs -> P (Node cs)) -> forall t, P t.
Proof.
  intros step.
  fix IH 1.
  intros [cs]. apply step.
  induction cs as [|c cs IHcs]; constructor.
  - apply IH.
  - exact IHcs.
Qed.

Lemma SIZE_MODULUS_value : SIZE_MODULUS = 18446744073709551616%Z.
Proof. reflexivity. Qed.

Lemma size_pos (t : tree) : 1 <= size t.
Proof. destruct t; simpl; lia. Qed.

Lemma forest_size_cons (t : tree) (ts : list tree) :
  forest_size (t :: ts) = size t + forest_size ts.
Proof. reflexivity. Qed.

Lemma forest_size_app (a b : list tree) :
  forest_size (a ++ b) = forest_size a + forest_size b.
Proof.
  unfold forest_size. rewrite map_app, list_sum_app. reflexivity.
Qed.

Lemma size_Node (cs : list tree) : size (Node cs) = S (forest_size cs).
Proof. reflexivity. Qed.

Lemma length_le_forest_size (ts : list tree) : length ts <= forest_size ts.
Proof.
  induction ts as [|t ts IH]; simpl; [lia|].
  rewrite forest_size_cons. pose proof (size_pos t). lia.
Qed.

Lemma forest_map_app {A} (f : iterator -> tree -> A) (a b : list tree) :
  forall n,
    forest_map f n (a ++ b)
    = forest_map f n a ++ forest_map f (n + forest_size a) b.
Proof.
  induction a as [|t a IH]; intros n; simpl.
  - f_equal. unfold forest_size; simpl. lia.
  - rewrite IH, forest_size_cons. do 3 f_equal. lia.
Qed.

Lemma forest_map_length {A} (f : iterator -> tree -> A) (ts : list tree) :
  forall n, length (forest_map f n ts) = length ts.
Proof.
  induction ts as [|t ts IH]; intros n; simpl; [reflexivity|].
  now rewrite IH.
Qed.

Lemma depth_Node (cs : list tree) :
  depth (Node cs) = S (list_max (map depth cs)).
Proof. reflexivity. Qed.

Lemma depth_cons_le (c : tree) (cs : list tree) (k : nat) :
  list_max (map depth (c :: cs)) <= k ->
  depth c <= k /\ list_max (map depth cs) <= k.
Proof. simpl. lia. Qed.

Lemma depth_le_size (t : tree) : depth t <= size t.
Proof.
  induction t as [cs IH] using tree_induction.
  rewrite depth_Node, size_Node. apply le_n_S.
  induction IH as [|c cs Hc _ IHcs]; simpl; [lia|].
  rewrite forest_size_cons. lia.
Qed.

Section WellFormedFacts.
Variable getChildrenCount : iterator -> option size_t.

Lemma count_is_true (n : iterator) (k : nat) :
  count_is getChildrenCount n k = true <->
  getChildrenCount n = Some (Z.of_nat k).
Proof.
  unfold count_is. destruct (getChildrenCount n) as [c|].
  - rewrite Z.eqb_eq. split; [now intros ->|congruence].
  - split; discriminate.
Qed.

Lemma flattened_at_Node (n : iterator) (cs : list tree) :
  flattened_at getChildrenCount n (Node cs) = true <->
  getChildrenCount n = Some (Z.of_nat (length cs))
  /\ forest_flattened_at getChildrenCount (S n) cs = true.
Proof.
  simpl. rewrite andb_true_iff, count_is_true. reflexivity.
Qed.

Lemma forest_flattened_at_cons (n : iterator) (t : tree) (ts : list tree) :
  forest_flattened_at getChildrenCount n (t :: ts) = true <->
  flattened_at getChildrenCount n t = true
  /\ forest_flattened_at getChildrenCount (n + size t) ts = true.
Proof.
  unfold forest_flattened_at. simpl. now rewrite andb_true_iff.
Qed.

Lemma forest_flattened_at_app (n : iterator) (a b : list tree) :
  forest_flattened_at getChildrenCount n (a ++ b) = true <->
  forest_flattened_at getChildrenCount n a = true
  /\ forest_flattened_at getChildrenCount (n + forest_size a) b = true.
Proof.
  unfold forest_flattened_at.
  now rewrite forest_map_app, forallb_app, andb_true_iff.
Qed.

Lemma well_formed_parts (n : iterator) (t : tree) :
  well_formed getChildrenCount n t = true <->
  flattened_at getChildrenCount n t = true
  /\ (Z.of_nat (size t) < SIZE_MODULUS)%Z.
Proof.
  unfold well_formed. now rewrite andb_true_iff, Z.ltb_lt.
Qed.

(** *** The loop of getNextSibling *)

Lemma getNextSibling_loop_erase (fuel : nat) :
  forall remaining node steps,
    getNextSibling_loop getChildrenCount fuel remaining node
    = option_map fst
        (getNextSibling_steps_loop getChildrenCount fuel remaining node
           steps).
Proof.
  induction fuel as [|fuel IH]; intros remaining node steps; simpl.
  - reflexivity.
  - destruct (getChildrenCount node) as [count|]; [|reflexivity].
    destruct (0 <? to_size_t (remaining + count - 1))%Z.
    + apply IH.
    + reflexivity.
Qed.

Lemma getNextSibling_erase (fuel : nat) (node : iterator) :
  getNextSibling getChildrenCount fuel node
  = option_map fst (getNextSibling_steps getChildrenCount fuel node).
Proof. apply getNextSibling_loop_erase. Qed.

Lemma getNextSibling_steps_loop_step fuel remaining node steps count :
  getChildrenCount node = Some count ->
  getNextSibling_steps_loop getChildrenCount (S fuel) remaining node steps
  = if (0 <? to_size_t (remaining + count - 1))%Z
    then getNextSibling_steps_loop getChildrenCount fuel
           (to_size_t (remaining + count - 1)) (S node) (S steps)
    else Some (S node, S steps).
Proof. intros Hcount. simpl. now rewrite Hcount. Qed.

(** The pending counter is the number of trees of the forest that is
    still to be walked: the loop leaves when that forest is empty. *)
Lemma getNextSibling_steps_forest (fuel : nat) :
  forall ts n steps,
    ts <> [] ->
    forest_flattened_at getChildrenCount n ts = true ->
    (Z.of_nat (forest_size ts) < SIZE_MODULUS)%Z ->
    forest_size ts <= fuel ->
    getNextSibling_steps_loop getChildrenCount fuel
      (Z.of_nat (length ts)) n steps
    = Some (n + forest_size ts, steps + forest_size ts).
Proof.
  induction fuel as [|fuel IH]; intros ts n steps Hne Hflat Hfit Hfuel.
  - destruct ts as [|t ts]; [congruence|].
    rewrite forest_size_cons in Hfuel. pose proof (size_pos t). lia.
  - destruct ts as [|[cs] ts]; [congruence|].
    apply forest_flattened_at_cons in Hflat as [Ht Hts].
    apply flattened_at_Node in Ht as [Hcount Hcs].
    rewrite forest_size_cons, size_Node in *.
    rewrite (getNextSibling_steps_loop_step _ _ _ _ _ Hcount).
    assert (Hlen : length (cs ++ ts) <= forest_size (cs ++ ts))
      by apply length_le_forest_size.
    rewrite forest_size_app in Hlen.
    assert (Hrem : to_size_t
                     (Z.of_nat (length (Node cs :: ts))
                      + Z.of_nat (length cs) - 1)
                   = Z.of_nat (length (cs ++ ts))).
    { unfold to_size_t. rewrite length_app in *. simpl length.
      rewrite Z.mod_small; [lia|]. rewrite SIZE_MODULUS_value in *. lia. }
    rewrite Hrem.
    destruct (cs ++ ts) as [|u us] eqn:Hrest.
    + apply app_eq_nil in Hrest as [-> ->]. simpl.
      f_equal. f_equal; unfold forest_size; simpl; lia.
    + rewrite <- Hrest in *.
      assert (Hpos : (0 <? Z.of_nat (length (cs ++ ts)))%Z = true).
      { apply Z.ltb_lt. rewrite Hrest. simpl length. lia. }
      rewrite Hpos.
      rewrite IH.
      * rewrite forest_size_app. f_equal. f_equal; lia.
      * rewrite Hrest. discriminate.
      * apply forest_flattened_at_app. split; [exact Hcs|].
        replace (S n + forest_size cs) with (n + S (forest_size cs)) by lia.
        exact Hts.
      * rewrite forest_size_app. lia.
      * rewrite forest_size_app. lia.
Qed.

(** With fewer iterations than the forest has entries, the loop is
    still running. *)
Lemma getNextSibling_steps_short (fuel : nat) :
  forall ts n steps,
    forest_flattened_at getChildrenCount n ts = true ->
    (Z.of_nat (forest_size ts) < SIZE_MODULUS)%Z ->
    fuel < forest_size ts ->
    getNextSibling_steps_loop getChildrenCount fuel
      (Z.of_nat (length ts)) n steps
    = None.
Proof.
  induction fuel as [|fuel IH]; intros ts n steps Hflat Hfit Hfuel.
  - reflexivity.
  - destruct ts as [|[cs] ts];
      [unfold forest_size in Hfuel; simpl in Hfuel; lia|].
    apply forest_flattened_at_cons in Hflat as [Ht Hts].
    apply flattened_at_Node in Ht as [Hcount Hcs].
    rewrite forest_size_cons, size_Node in *.
    rewrite (getNextSibling_steps_loop_step _ _ _ _ _ Hcount).
    assert (Hlen : length (cs ++ ts) <= forest_size (cs ++ ts))
      by apply length_le_forest_size.
    rewrite forest_size_app in Hlen.
    assert (Hrem : to_size_t
                     (Z.of_nat (length (Node cs :: ts))
                      + Z.of_nat (length cs) - 1)
                   = Z.of_nat (length (cs ++ ts))).
    { unfold to_size_t. rewrite length_app in *. simpl length.
      rewrite Z.mod_small; [lia|]. rewrite SIZE_MODULUS_value in *. lia. }
    rewrite Hrem.
    destruct (cs ++ ts) as [|u us] eqn:Hrest.
    + apply app_eq_nil in Hrest as [-> ->].
      unfold forest_size in Hfuel. simpl in Hfuel. lia.
    + rewrite <- Hrest in *.
      assert (Hpos : (0 <? Z.of_nat (length (cs ++ ts)))%Z = true).
      { apply Z.ltb_lt. rewrite Hrest. simpl length. lia. }
      rewrite Hpos.
      apply IH.
      * apply forest_flattened_at_app. split; [exact Hcs|].
        replace (S n + forest_size cs) with (n + S (forest_size cs)) by lia.
        exact Hts.
      * rewrite forest_size_app. lia.
      * rewrite forest_size_app. lia.
Qed.

Lemma getNextSibling_steps_tree (t : tree) (n fuel : nat) :
  well_formed getChildrenCount n t = true ->
  size t <= fuel ->
  getNextSibling_steps getChildrenCount fuel n = Some (n + size t, size t).
Proof.
  intros Hwf Hfuel. apply well_formed_parts in Hwf as [Hflat Hfit].
  unfold getNextSibling_steps.
  change 1%Z with (Z.of_nat (length [t])).
  assert (Hsize : forest_size [t] = size t)
    by (unfold forest_size; simpl; lia).
  rewrite getNextSibling_steps_forest.
  - now rewrite Hsize.
  - discriminate.
  - apply forest_flattened_at_cons. now split.
  - now rewrite Hsize.
  - now rewrite Hsize.
Qed.

Lemma getNextSibling_tree (t : tree) (n fuel : nat) :
  well_formed getChildrenCount n t = true ->
  size t <= fuel ->
  getNextSibling getChildrenCount fuel n = Some (n + size t).
Proof.
  intros Hwf Hfuel.
  rewrite getNextSibling_erase, (getNextSibling_steps_tree t); auto.
Qed.

Lemma getNextSibling_leaf (n fuel : nat) :
  getChildrenCount n = Some 0%Z ->
  getNextSibling getChildrenCount (S fuel) n = Some (S n).
Proof.
  intros Hcount. unfold getNextSibling. simpl. now rewrite Hcount.
Qed.

End WellFormedFacts.

(** ** recursiveTraversal *)

Section RecursiveTraversalFacts.
Variable getChildrenCount : iterator -> option size_t.

Lemma recursiveTraversal_unfold {St} (func : iterator -> M St iterator)
      (node : iterator) (st : St) :
  recursiveTraversal getChildrenCount func node st
  = match getChildrenCount node with
    | Some c => recursiveTraversal_loop func (Z.to_nat c) (S node) st
    | None => None
    end.
Proof.
  unfold recursiveTraversal, bind, lift_option.
  now destruct (getChildrenCount node).
Qed.

Lemma recursiveTraversal_Node {St} (func : iterator -> M St iterator)
      (n : iterator) (cs : list tree) (st : St) :
  flattened_at getChildrenCount n (Node cs) = true ->
  recursiveTraversal getChildrenCount func n st
  = recursiveTraversal_loop func (length cs) (S n) st.
Proof.
  intros Hflat. apply flattened_at_Node in Hflat as [Hcount _].
  now rewrite recursiveTraversal_unfold, Hcount, Nat2Z.id.
Qed.

Lemma recursiveTraversal_loop_cons {St} (func : iterator -> M St iterator)
      (k : nat) (node : iterator) (st : St) :
  recursiveTraversal_loop func (S k) node st
  = match func node st with
    | Some (node', st') => recursiveTraversal_loop func k node' st'
    | None => None
    end.
Proof. reflexivity. Qed.

(** Whatever the callback returns, it is invoked once per unit of the
    counter. *)
Lemma recursiveTraversal_loop_logged {St} (func : iterator -> M St iterator) :
  (forall q st, func q st <> None) ->
  forall k node st log,
  exists next st' log',
    recursiveTraversal_loop (logged func) k node (st, log)
    = Some (next, (st', log ++ log'))
    /\ length log' = k.
Proof.
  intros Htotal. induction k as [|k IH]; intros node st log.
  - exists node, st, []. rewrite app_nil_r. now split.
  - destruct (func node st) as [[node' st']|] eqn:Hf;
      [|now apply Htotal in Hf].
    destruct (IH node' st' (log ++ [node]))
      as (next & st'' & log' & Hrun & Hlen).
    exists next, st'', (node :: log'). split.
    + rewrite recursiveTraversal_loop_cons. unfold logged at 1.
      now rewrite Hf, Hrun, <- app_assoc.
    + simpl. now rewrite Hlen.
Qed.

(** A callback that returns the handle past the subtree of each child
    is invoked at the handle of each child, in order. *)
Lemma recursiveTraversal_loop_children {St}
      (func : iterator -> M St iterator) :
  forall cs p,
    (forall q c, In (q, c) (forest_map pair p cs) ->
                 forall st, exists st', func q st = Some (q + size c, st')) ->
    forall st log,
    exists st',
      recursiveTraversal_loop (logged func) (length cs) p (st, log)
      = Some (p + forest_size cs, (st', log ++ forest_handles p cs)).
Proof.
  induction cs as [|c cs IH]; intros p Hconsume st log.
  - exists st. simpl. unfold ret, forest_size. simpl.
    now rewrite app_nil_r, Nat.add_0_r.
  - destruct (Hconsume p c (or_introl eq_refl) st) as [st1 Hf].
    destruct (IH (p + size c)
                 (fun q d Hin => Hconsume q d (or_intror Hin))
                 st1 (log ++ [p])) as [st2 Hrun].
    exists st2. simpl length.
    rewrite recursiveTraversal_loop_cons. unfold logged at 1.
    rewrite Hf, Hrun, forest_size_cons, <- app_assoc.
    do 2 f_equal. lia.
Qed.
End RecursiveTraversalFacts.

(** ** evaluationTraversal refines the reference semantics *)

Section EvaluationFacts.
Variable getChildrenCount : iterator -> option size_t.
Context {Value State : Type}.
Variable value_init : Value.
Variable func : iterator -> list Value -> State -> option (Value * State).

Lemma window_app (vs ws : list Value) : window (length vs) (vs ++ ws) = ws.
Proof.
  unfold window. rewrite skipn_app, skipn_all, Nat.sub_diag. reflexivity.
Qed.

Lemma resize_app (vs ws : list Value) :
  resize value_init (length vs) (vs ++ ws) = vs.
Proof.
  unfold resize. rewrite firstn_app, firstn_all, Nat.sub_diag, length_app.
  replace (length vs - (length vs + length ws)) with 0 by lia.
  simpl. now rewrite !app_nil_r.
Qed.

Lemma evaluate_node_step (fuel : nat) (node : iterator)
      (vs : list Value) (s : State) :
  evaluate_node getChildrenCount value_init func (S fuel) node (vs, s)
  = match recursiveTraversal getChildrenCount
            (evaluate_node getChildrenCount value_init func fuel) node
            (vs, s) with
    | Some (next, (values, s1)) =>
        match func node (window (length vs) values) s1 with
        | Some (r, s2) =>
            Some (next,
                  (push_back (resize value_init (length vs) values) r, s2))
        | None => None
        end
    | None => None
    end.
Proof.
  simpl. unfold bind, values_size, call_evaluator,
    values_resize, values_emplace_back, ret.
  destruct (recursiveTraversal _ _ _ _) as [[next [values s1]]|];
    [|reflexivity].
  destruct (func node _ s1) as [[r s2]|]; reflexivity.
Qed.

(** The children of a node, evaluated left to right, each push their
    value. *)
Lemma evaluate_children (fuel : nat) :
  (forall t n vs s,
      flattened_at getChildrenCount n t = true ->
      depth t <= fuel ->
      evaluate_node getChildrenCount value_init func fuel n (vs, s)
      = match eval_tree func n t s with
        | Some (v, s') => Some (n + size t, (vs ++ [v], s'))
        | None => None
        end) ->
  forall cs p vs s,
    forest_flattened_at getChildrenCount p cs = true ->
    list_max (map depth cs) <= fuel ->
    recursiveTraversal_loop
      (evaluate_node getChildrenCount value_init func fuel) (length cs) p
      (vs, s)
    = match eval_forest (eval_tree func) p cs s with
      | Some (ws, s') => Some (p + forest_size cs, (vs ++ ws, s'))
      | None => None
      end.
Proof.
  intros IH. induction cs as [|c cs IHcs]; intros p vs s Hflat Hdepth.
  - simpl. unfold ret, forest_size. simpl.
    now rewrite app_nil_r, Nat.add_0_r.
  - apply forest_flattened_at_cons in Hflat as [Hc Hcs].
    apply depth_cons_le in Hdepth as [Hdc Hdcs].
    simpl length. rewrite recursiveTraversal_loop_cons.
    rewrite (IH c p vs s Hc Hdc). simpl eval_forest.
    destruct (eval_tree func p c s) as [[v s1]|]; [|reflexivity].
    rewrite (IHcs _ _ _ Hcs Hdcs).
    destruct (eval_forest (eval_tree func) (p + size c) cs s1)
      as [[ws s2]|]; [|reflexivity].
    rewrite forest_size_cons, <- app_assoc. simpl.
    do 2 f_equal. lia.
Qed.

(** The lambda of [evaluationTraversal] at a node: the buffer gains the
    value of the node, and the handle past its subtree is returned. *)
Lemma evaluate_node_spec (fuel : nat) :
  forall t n vs s,
    flattened_at getChildrenCount n t = true ->
    depth t <= fuel ->
    evaluate_node getChildrenCount value_init func fuel n (vs, s)
    = match eval_tree func n t s with
      | Some (v, s') => Some (n + size t, (vs ++ [v], s'))
      | None => None
      end.
Proof.
  induction fuel as [|fuel IH]; intros [cs] n vs s Hflat Hdepth.
  - rewrite depth_Node in Hdepth. lia.
  - rewrite depth_Node in Hdepth. apply le_S_n in Hdepth.
    rewrite evaluate_node_step.
    rewrite recursiveTraversal_Node with (cs := cs) by exact Hflat.
    apply flattened_at_Node in Hflat as [_ Hcs].
    rewrite (evaluate_children fuel IH _ _ _ _ Hcs Hdepth). simpl eval_tree.
    destruct (eval_forest (eval_tree func) (S n) cs s) as [[ws s1]|];
      [|reflexivity].
    rewrite window_app, resize_app.
    destruct (func n ws s1) as [[r s2]|]; [|reflexivity].
    rewrite size_Node. unfold push_back. do 2 f_equal. lia.
Qed.

(** The whole call: the root's children leave their values in the
    buffer, and the root's value is returned, not pushed. *)
Lemma evaluationTraversal_run_spec (fuel : nat) (cs : list tree)
      (root : iterator) (s : State) :
  flattened_at getChildrenCount root (Node cs) = true ->
  depth (Node cs) <= S fuel ->
  evaluationTraversal_run getChildrenCount value_init func fuel root ([], s)
  = match eval_forest (eval_tree func) (S root) cs s with
    | Some (ws, s1) =>
        match func root ws s1 with
        | Some (v, s2) => Some ((v, root + size (Node cs)), (ws, s2))
        | None => None
        end
    | None => None
    end.
Proof.
  intros Hflat Hdepth. rewrite depth_Node in Hdepth. apply le_S_n in Hdepth.
  unfold evaluationTraversal_run, bind.
  rewrite recursiveTraversal_Node with (cs := cs) by exact Hflat.
  apply flattened_at_Node in Hflat as [_ Hcs].
  pose proof (evaluate_children fuel (evaluate_node_spec fuel) cs (S root)
                [] s Hcs Hdepth) as Hrun.
  rewrite Hrun.
  destruct (eval_forest (eval_tree func) (S root) cs s) as [[ws s1]|];
    [|reflexivity].
  simpl. unfold window. simpl.
  destruct (func root ws s1) as [[v s2]|]; [|reflexivity].
  unfold ret, forest_size. do 3 f_equal. lia.
Qed.

Lemma evaluationTraversal_spec (fuel : nat) (t : tree)
      (root : iterator) (s : State) :
  flattened_at getChildrenCount root t = true ->
  depth t <= S fuel ->
  evaluationTraversal getChildrenCount value_init func fuel root s
  = match eval_tree func root t s with
    | Some (v, s') => Some ((v, root + size t), s')
    | None => None
    end.
Proof.
  destruct t as [cs]. intros Hflat Hdepth. unfold evaluationTraversal.
  rewrite (evaluationTraversal_run_spec _ _ _ _ Hflat Hdepth).
  simpl eval_tree.
  destruct (eval_forest (eval_tree func) (S root) cs s) as [[ws s1]|];
    [|reflexivity].
  destruct (func root ws s1) as [[v s2]|]; reflexivity.
Qed.
End EvaluationFacts.

(** ** Pure and traced evaluators *)

Section PureEvaluatorFacts.
Context {Value : Type}.
Variable f : iterator -> list Value -> Value.

Lemma eval_forest_traced (cs : list tree) :
  Forall (fun c => forall n log,
              eval_tree (traced f) n c log
              = Some (value f n c, log ++ invocations f n c)) cs ->
  forall p log,
    eval_forest (eval_tree (traced f)) p cs log
    = Some (forest_map (value f) p cs,
            log ++ concat (forest_map (invocations f) p cs)).
Proof.
  induction 1 as [|c cs Hc _ IH]; intros p log; simpl.
  - now rewrite app_nil_r.
  - now rewrite Hc, IH, app_assoc.
Qed.

Lemma eval_tree_traced (t : tree) :
  forall n log,
    eval_tree (traced f) n t log
    = Some (value f n t, log ++ invocations f n t).
Proof.
  induction t as [cs IH] using tree_induction. intros n log.
  simpl. rewrite (eval_forest_traced cs IH). unfold traced.
  now rewrite app_assoc.
Qed.

Lemma invocations_length (t : tree) :
  forall n, length (invocations f n t) = size t.
Proof.
  induction t as [cs IH] using tree_induction. intros n.
  simpl. rewrite length_app. simpl. rewrite Nat.add_1_r. f_equal.
  generalize (S n). induction IH as [|c cs Hc _ IHcs]; intros p; simpl.
  - reflexivity.
  - now rewrite length_app, Hc, IHcs.
Qed.

(** Every invocation hands the evaluator as many values as the node
    has children. *)
Lemma invocations_windows (getChildrenCount : iterator -> option size_t)
      (t : tree) :
  forall n,
    flattened_at getChildrenCount n t = true ->
    Forall (fun '(node, w) =>
              getChildrenCount node = Some (Z.of_nat (length w)))
           (invocations f n t).
Proof.
  induction t as [cs IH] using tree_induction. intros n Hflat.
  apply flattened_at_Node in Hflat as [Hcount Hcs].
  simpl. apply Forall_app. split.
  - clear Hcount. revert Hcs. generalize (S n).
    induction IH as [|c cs Hc _ IHcs]; intros p Hcs; simpl.
    + constructor.
    + apply forest_flattened_at_cons in Hcs as [Hc' Hcs].
      apply Forall_app. split; auto.
  - constructor; [|constructor].
    now rewrite forest_map_length.
Qed.
End PureEvaluatorFacts.

Lemma eval_forest_total {Value State}
      (func : iterator -> list Value -> State -> option (Value * State))
      (cs : list tree) :
  Forall (fun c => forall n s, eval_tree func n c s <> None) cs ->
  forall p s, eval_forest (eval_tree func) p cs s <> None.
Proof.
  induction 1 as [|c cs Hc _ IH]; intros p s; simpl.
  - discriminate.
  - destruct (eval_tree func p c s) as [[v s1]|] eqn:Hv;
      [|now apply Hc in Hv].
    destruct (eval_forest (eval_tree func) (p + size c) cs s1)
      as [[vs s2]|] eqn:Hvs; [discriminate|now apply IH in Hvs].
Qed.

(** An evaluator that always returns gives every node a value. *)
Lemma eval_tree_total {Value State}
      (func : iterator -> list Value -> State -> option (Value * State)) :
  (forall node w s, func node w s <> None) ->
  forall t n s, eval_tree func n t s <> None.
Proof.
  intros Htotal t. induction t as [cs IH] using tree_induction. intros n s.
  simpl.
  destruct (eval_forest (eval_tree func) (S n) cs s) as [[vs s1]|] eqn:Hvs.
  - apply Htotal.
  - now apply (eval_forest_total func cs IH) in Hvs.
Qed.

(** ** ancestorsTraversal *)

Lemma visit_all_app {State} (func : list iterator -> State -> option State)
      (a b : list (list iterator)) :
  forall s,
    visit_all func (a ++ b) s
    = match visit_all func a s with
      | Some s' => visit_all func b s'
      | None => None
      end.
Proof.
  induction a as [|v a IH]; intros s; simpl; [reflexivity|].
  destruct (func v s); [apply IH|reflexivity].
Qed.

Lemma visit_all_recording (views : list (list iterator)) :
  forall log, visit_all recording views log = Some (log ++ views).
Proof.
  induction views as [|v views IH]; intros log; simpl.
  - now rewrite app_nil_r.
  - now rewrite IH, <- app_assoc.
Qed.

Section AncestorsFacts.
Variable getChildrenCount : iterator -> option size_t.
Context {State : Type}.
Variable func : list iterator -> State -> option State.

Lemma ancestors_visit_step (fuel : nat) (node : iterator)
      (stack : list iterator) (s : State) :
  ancestors_visit getChildrenCount func (S fuel) node (stack, s)
  = match func (stack ++ [node]) s with
    | Some s1 =>
        match recursiveTraversal getChildrenCount
                (ancestors_visit getChildrenCount func fuel) node
                (stack ++ [node], s1) with
        | Some (next, (ancestors, s2)) =>
            Some (next, (pop_back ancestors, s2))
        | None => None
        end
    | None => None
    end.
Proof.
  simpl. unfold bind, ancestors_push, call_visitor, ancestors_pop, ret,
    push_back.
  destruct (func (stack ++ [node]) s) as [s1|]; [|reflexivity].
  destruct (recursiveTraversal _ _ _ _) as [[next [ancestors s2]]|];
    reflexivity.
Qed.

Lemma ancestors_children (fuel : nat) :
  (forall t n stack s,
      flattened_at getChildrenCount n t = true ->
      depth t <= fuel ->
      ancestors_visit getChildrenCount func fuel n (stack, s)
      = match visit_all func (ancestor_stacks stack n t) s with
        | Some s' => Some (n + size t, (stack, s'))
        | None => None
        end) ->
  forall cs p stack s,
    forest_flattened_at getChildrenCount p cs = true ->
    list_max (map depth cs) <= fuel ->
    recursiveTraversal_loop (ancestors_visit getChildrenCount func fuel)
      (length cs) p (stack, s)
    = match visit_all func
              (concat (forest_map (ancestor_stacks stack) p cs)) s with
      | Some s' => Some (p + forest_size cs, (stack, s'))
      | None => None
      end.
Proof.
  intros IH. induction cs as [|c cs IHcs]; intros p stack s Hflat Hdepth.
  - simpl. unfold ret, forest_size. simpl. now rewrite Nat.add_0_r.
  - apply forest_flattened_at_cons in Hflat as [Hc Hcs].
    apply depth_cons_le in Hdepth as [Hdc Hdcs].
    simpl length. rewrite recursiveTraversal_loop_cons.
    rewrite (IH c p stack s Hc Hdc). simpl forest_map. simpl concat.
    rewrite visit_all_app.
    destruct (visit_all func (ancestor_stacks stack p c) s) as [s1|];
      [|reflexivity].
    rewrite (IHcs _ _ _ Hcs Hdcs).
    destruct (visit_all func _ s1) as [s2|]; [|reflexivity].
    rewrite forest_size_cons. do 2 f_equal. lia.
Qed.

(** The lambda of [ancestorsTraversal] at a node: the visitor sees the
    stack of every node of the subtree, and the stack is left as it
    was found. *)
Lemma ancestors_visit_spec (fuel : nat) :
  forall t n stack s,
    flattened_at getChildrenCount n t = true ->
    depth t <= fuel ->
    ancestors_visit getChildrenCount func fuel n (stack, s)
    = match visit_all func (ancestor_stacks stack n t) s with
      | Some s' => Some (n + size t, (stack, s'))
      | None => None
      end.
Proof.
  induction fuel as [|fuel IH]; intros [cs] n stack s Hflat Hdepth.
  - rewrite depth_Node in Hdepth. lia.
  - rewrite depth_Node in Hdepth. apply le_S_n in Hdepth.
    rewrite ancestors_visit_step. simpl ancestor_stacks. simpl visit_all.
    destruct (func (stack ++ [n]) s) as [s1|]; [|reflexivity].
    rewrite recursiveTraversal_Node with (cs := cs) by exact Hflat.
    apply flattened_at_Node in Hflat as [_ Hcs].
    rewrite (ancestors_children fuel IH _ _ _ _ Hcs Hdepth).
    destruct (visit_all func _ s1) as [s2|]; [|reflexivity].
    unfold pop_back. rewrite removelast_last, size_Node.
    do 2 f_equal. lia.
Qed.

Lemma ancestorsTraversal_spec (fuel : nat) (t : tree) (root : iterator)
      (s : State) :
  flattened_at getChildrenCount root t = true ->
  depth t <= S fuel ->
  ancestorsTraversal getChildrenCount func fuel root s
  = match visit_all func (ancestor_stacks [] root t) s with
    | Some s' => Some (root + size t, s')
    | None => None
    end.
Proof.
  destruct t as [cs]. intros Hflat Hdepth.
  rewrite depth_Node in Hdepth. apply le_S_n in Hdepth.
  unfold ancestorsTraversal, ancestorsTraversal_run, bind,
    ancestors_push, call_visitor, push_back.
  simpl ancestor_stacks. simpl visit_all. simpl app.
  destruct (func [root] s) as [s1|]; [|reflexivity].
  rewrite recursiveTraversal_Node with (cs := cs) by exact Hflat.
  apply flattened_at_Node in Hflat as [_ Hcs].
  rewrite (ancestors_children fuel (ancestors_visit_spec fuel)
             _ _ _ _ Hcs Hdepth).
  destruct (visit_all func _ s1) as [s2|]; [|reflexivity].
  rewrite size_Node. do 2 f_equal. lia.
Qed.
End AncestorsFacts.

(** *** The views of the ancestor stack *)

Lemma ancestor_stacks_length (t : tree) :
  forall stack n, length (ancestor_stacks stack n t) = size t.
Proof.
  induction t as [cs IH] using tree_induction. intros stack n.
  simpl. f_equal.
  generalize (stack ++ [n]) (S n).
  induction IH as [|c cs Hc _ IHcs]; intros stk p; simpl.
  - reflexivity.
  - now rewrite length_app, Hc, IHcs.
Qed.

(** Each view ends with the visited node, and its length is the depth of
    the node. *)
Lemma ancestor_stacks_depths (t : tree) :
  forall stack n,
    map (fun view => (last view 0, length view)) (ancestor_stacks stack n t)
    = preorder_depths (S (length stack)) n t.
Proof.
  induction t as [cs IH] using tree_induction. intros stack n.
  assert (Hgen : forall stk p,
             map (fun view => (last view 0, length view))
               (concat (forest_map (ancestor_stacks stk) p cs))
             = concat (forest_map (preorder_depths (S (length stk))) p cs)).
  { induction IH as [|c cs Hc _ IHcs]; intros stk p; simpl.
    - reflexivity.
    - now rewrite map_app, Hc, IHcs. }
  simpl. rewrite last_last, Hgen, !length_app. simpl length.
  now rewrite Nat.add_1_r.
Qed.

(** Each view starts with the stack the walk of the subtree was entered
    with, followed by the subtree's root. *)
Lemma ancestor_stacks_prefix (t : tree) :
  forall stack n,
    Forall (fun view => exists rest, view = stack ++ n :: rest)
           (ancestor_stacks stack n t).
Proof.
  induction t as [cs IH] using tree_induction. intros stack n.
  simpl. constructor.
  - now exists [].
  - assert (Hgen : forall p,
               Forall (fun view => exists rest, view = (stack ++ [n]) ++ rest)
                 (concat (forest_map (ancestor_stacks (stack ++ [n])) p cs))).
    { induction IH as [|c cs Hc _ IHcs]; intros p; simpl.
      - constructor.
      - apply Forall_app. split; [|apply IHcs].
        eapply Forall_impl; [|apply Hc].
        intros view [rest ->]. now exists (p :: rest). }
    eapply Forall_impl; [|apply (Hgen (S n))].
    intros view [rest ->]. exists rest. now rewrite <- app_assoc.
Qed.

(** ** getNextSibling and the oracle *)

Lemma getNextSibling_loop_advances
      (getChildrenCount : iterator -> option size_t) (fuel : nat) :
  forall remaining n m,
    getNextSibling_loop getChildrenCount fuel remaining n = Some m -> n < m.
Proof.
  induction fuel as [|fuel IH]; intros remaining n m; simpl; [discriminate|].
  destruct (getChildrenCount n) as [count|]; [|discriminate].
  destruct (0 <? to_size_t (remaining + count - 1))%Z.
  - intros Hrun. apply IH in Hrun. lia.
  - intros [= <-]. lia.
Qed.

Lemma getNextSibling_loop_oracles
      (oracle1 oracle2 : iterator -> option size_t) (fuel : nat) :
  forall remaining n m,
    getNextSibling_loop oracle1 fuel remaining n = Some m ->
    (forall h, n <= h < m -> oracle1 h = oracle2 h) ->
    getNextSibling_loop oracle2 fuel remaining n = Some m.
Proof.
  induction fuel as [|fuel IH]; intros remaining n m Hrun Hagree;
    [discriminate|].
  pose proof (getNextSibling_loop_advances _ _ _ _ _ Hrun) as Hlt.
  simpl in Hrun |- *. rewrite <- (Hagree n) by lia.
  destruct (oracle1 n) as [count|]; [|discriminate].
  destruct (0 <? to_size_t (remaining + count - 1))%Z.
  - apply IH; [exact Hrun|]. intros h Hh. apply Hagree. lia.
  - exact Hrun.
Qed.

(** Among siblings: at the handle of a tree of a flattened forest,
    [getNextSibling] returns where the trees after it start, which is the
    handle of its next sibling, or the end of the forest's run. *)
Corollary getNextSibling_next_sibling
          (getChildrenCount : iterator -> option size_t)
          (before after : list tree) (t : tree) (p fuel : nat) :
  forest_flattened_at getChildrenCount p (before ++ t :: after) = true ->
  (Z.of_nat (size t) < SIZE_MODULUS)%Z ->
  size t <= fuel ->
  forest_handles p (before ++ t :: after)
  = forest_handles p before
      ++ (p + forest_size before)
      :: forest_handles (p + forest_size before + size t) after
  /\ getNextSibling getChildrenCount fuel (p + forest_size before)
     = Some (p + forest_size before + size t).
Proof.
  intros Hflat Hfit Hfuel. split.
  - unfold forest_handles. now rewrite forest_map_app.
  - apply forest_flattened_at_app in Hflat as [_ Hrest].
    apply forest_flattened_at_cons in Hrest as [Ht _].
    apply getNextSibling_tree; [|exact Hfuel].
    apply well_formed_parts. now split.
Qed.

Lemma invocations_postorder {Value} (f : iterator -> list Value -> Value)
      (t : tree) :
  forall n,
    invocations f n t
    = map (fun '(m, u) => (m, child_values f m u)) (postorder n t).
Proof.
  induction t as [cs IH] using tree_induction. intros n.
  simpl. rewrite map_app. simpl. f_equal.
  generalize (S n). induction IH as [|c cs Hc _ IHcs]; intros p; simpl.
  - reflexivity.
  - now rewrite map_app, Hc, IHcs.
Qed.

Lemma well_formed_flattened (getChildrenCount : iterator -> option size_t)
      (n : iterator) (t : tree) :
  well_formed getChildrenCount n t = true ->
  flattened_at getChildrenCount n t = true.
Proof. intros Hwf. now apply well_formed_parts in Hwf. Qed.

(** ** The properties of the specification *)

(** C3: on a well-formed flattened preorder tree, [getNextSibling] at the
    handle of a node returns the handle of the first entry after the whole
    subtree of the node, [n + size t], where its next sibling starts if it
    has one; at a node whose child count is 0 it returns the handle plus
    one. *)
Theorem getNextSibling_past_subtree
        (getChildrenCount : iterator -> option size_t)
        (t : tree) (n : iterator) (fuel : nat) :
  well_formed getChildrenCount n t = true ->
  size t <= fuel ->
  getNextSibling getChildrenCount fuel n = Some (n + size t)
  /\ (getChildrenCount n = Some 0%Z ->
      getNextSibling getChildrenCount fuel n = Some (S n)).
Proof.
  intros Hwf Hfuel. split.
  - now apply getNextSibling_tree.
  - intros Hleaf. destruct fuel as [|fuel].
    + pose proof (size_pos t). lia.
    + now apply getNextSibling_leaf.
Qed.

Lemma getNextSibling_past_subtree_witness :
  getNextSibling Fixture.EntryTraits.getChildrenCount 7 2 = Some (2 + 4)
  /\ (Fixture.EntryTraits.getChildrenCount 2 = Some 0%Z ->
      getNextSibling Fixture.EntryTraits.getChildrenCount 7 2 = Some 3).
Proof.
  apply (getNextSibling_past_subtree Fixture.EntryTraits.getChildrenCount
           (Node [Node [Fixture.leaf]; Fixture.leaf]) 2 7).
  - reflexivity.
  - simpl. lia.
Defined.

(** C6: on a well-formed flattened preorder tree the loop of
    [getNextSibling] terminates: given at least as many iterations as the
    subtree of the start node has entries it returns, after exactly that
    many [++node] steps, and with fewer it is still running. Where the
    subtree ends the sequence, as the subtree of the root of a valid tree
    does, the handle returned is the end-of-sequence handle. *)
Theorem getNextSibling_terminates
        (getChildrenCount : iterator -> option size_t)
        (t : tree) (n : iterator) :
  well_formed getChildrenCount n t = true ->
  (forall fuel, size t <= fuel ->
     getNextSibling_steps getChildrenCount fuel n = Some (n + size t, size t))
  /\ (forall fuel, size t <= fuel ->
        getNextSibling getChildrenCount fuel n = Some (n + size t))
  /\ (forall fuel, fuel < size t ->
        getNextSibling getChildrenCount fuel n = None)
  /\ (forall last, n + size t = last ->
        getNextSibling getChildrenCount (size t) n = Some last).
Proof.
  intros Hwf. repeat split.
  - intros fuel Hfuel. now apply getNextSibling_steps_tree.
  - intros fuel Hfuel. now apply getNextSibling_tree.
  - intros fuel Hfuel. apply well_formed_parts in Hwf as [Hflat Hfit].
    rewrite (getNextSibling_erase _ _ _). unfold getNextSibling_steps.
    change 1%Z with (Z.of_nat (length [t])).
    assert (Hsize : forest_size [t] = size t)
      by (unfold forest_size; simpl; lia).
    rewrite getNextSibling_steps_short; [reflexivity| | |].
    + apply forest_flattened_at_cons. now split.
    + now rewrite Hsize.
    + now rewrite Hsize.
  - intros last <-. now apply getNextSibling_tree.
Qed.

Lemma getNextSibling_terminates_witness :
  getNextSibling_steps Fixture.EntryTraits.getChildrenCount 7 0
  = Some (Fixture.entries_end, 7)
  /\ getNextSibling Fixture.EntryTraits.getChildrenCount 6 0 = None.
Proof.
  destruct (getNextSibling_terminates Fixture.EntryTraits.getChildrenCount
              Fixture.fixture_tree 0 eq_refl) as (Hsteps & _ & Hshort & _).
  split.
  - apply (Hsteps 7). simpl. lia.
  - apply (Hshort 6). simpl. lia.
Defined.

(** C10: the result of [getNextSibling] at [n] depends only on the child
    counts of the entries from [n] up to the handle returned: an oracle
    that agrees with the first on that half-open range gives the same
    handle, whatever it reports at or past the handle returned. *)
Theorem getNextSibling_oracle_independent
        (oracle1 oracle2 : iterator -> option size_t)
        (fuel : nat) (n m : iterator) :
  getNextSibling oracle1 fuel n = Some m ->
  (forall h, n <= h < m -> oracle1 h = oracle2 h) ->
  getNextSibling oracle2 fuel n = Some m.
Proof. apply getNextSibling_loop_oracles. Qed.

Lemma getNextSibling_oracle_independent_witness :
  getNextSibling
    (fun h => if h <? 6 then Fixture.EntryTraits.getChildrenCount h else None)
    7 2
  = Some 6.
Proof.
  apply (getNextSibling_oracle_independent
           Fixture.EntryTraits.getChildrenCount _ 7 2 6).
  - reflexivity.
  - intros h Hh. destruct (Nat.ltb_spec h 6); [reflexivity|lia].
Defined.

(** C2: on a well-formed flattened preorder tree, [recursiveTraversal] at
    a node invokes its callback exactly [getChildrenCount] times, whatever
    the callback returns; and when each invocation returns the handle past
    the subtree of the child it receives, the callback is invoked once at
    the handle of each child, in sequence order, and the handle returned
    is the one [getNextSibling] returns at the node. *)
Theorem recursiveTraversal_invocations
        (getChildrenCount : iterator -> option size_t)
        (t : tree) (n : iterator) :
  well_formed getChildrenCount n t = true ->
  (forall St (func : iterator -> M St iterator) (st : St),
      (forall q s, func q s <> None) ->
      exists next st' log,
        recursiveTraversal getChildrenCount (logged func) n (st, [])
        = Some (next, (st', log))
        /\ getChildrenCount n = Some (Z.of_nat (length log)))
  /\ (forall St (func : iterator -> M St iterator) (st : St),
         (forall q c, In (q, c) (children_at n t) ->
                      forall s, exists s', func q s = Some (q + size c, s')) ->
         exists st',
           recursiveTraversal getChildrenCount (logged func) n (st, [])
           = Some (n + size t, (st', forest_handles (S n) (children t)))
           /\ getChildrenCount n
              = Some (Z.of_nat (length (forest_handles (S n) (children t))))
           /\ forall fuel, size t <= fuel ->
                getNextSibling getChildrenCount fuel n = Some (n + size t)).
Proof.
  intros Hwf. pose proof (well_formed_flattened _ _ _ Hwf) as Hflat.
  destruct t as [cs].
  pose proof Hflat as Hnode. apply flattened_at_Node in Hnode as [Hcount _].
  split.
  - intros St func st Htotal.
    destruct (recursiveTraversal_loop_logged func Htotal (length cs) (S n)
                st []) as (next & st' & log & Hrun & Hlen).
    exists next, st', log. simpl in Hrun.
    rewrite recursiveTraversal_Node with (cs := cs) by exact Hflat.
    now rewrite Hrun, Hlen.
  - intros St func st Hconsume.
    destruct (recursiveTraversal_loop_children func cs (S n) Hconsume st [])
      as [st' Hrun].
    exists st'. simpl in Hrun. repeat split.
    + rewrite recursiveTraversal_Node with (cs := cs) by exact Hflat.
      rewrite Hrun, size_Node. do 2 f_equal. lia.
    + unfold forest_handles. simpl children.
      now rewrite forest_map_length.
    + intros fuel Hfuel. now apply getNextSibling_tree.
Qed.

Lemma recursiveTraversal_invocations_witness :
  exists st',
    recursiveTraversal Fixture.EntryTraits.getChildrenCount
      (logged (fun q (st : unit) =>
                 match getNextSibling Fixture.EntryTraits.getChildrenCount 7 q
                 with
                 | Some next => Some (next, st)
                 | None => None
                 end))
      0 (tt, [])
    = Some (7, (st', [1; 2; 6])).
Proof.
  destruct (recursiveTraversal_invocations
              Fixture.EntryTraits.getChildrenCount Fixture.fixture_tree 0
              eq_refl) as [_ Hchildren].
  destruct (Hchildren unit
              (fun q (st : unit) =>
                 match getNextSibling Fixture.EntryTraits.getChildrenCount 7 q
                 with
                 | Some next => Some (next, st)
                 | None => None
                 end) tt) as (st' & Hrun & _).
  - intros q c Hin s. exists s. simpl in Hin.
    destruct Hin as [[= <- <-]|[[= <- <-]|[[= <- <-]|[]]]]; reflexivity.
  - exists st'. exact Hrun.
Defined.

(** C1: on a well-formed flattened preorder tree, [evaluationTraversal]
    invokes the evaluator once for every node of the tree, children before
    their parent, each time with the handle of the node and the values of
    its immediate children, left to right; the value of every node is the
    evaluator at that handle and those values, and the first component of
    the pair returned is the value of the root. *)
Theorem evaluationTraversal_values
        (getChildrenCount : iterator -> option size_t)
        {Value : Type} (value_init : Value)
        (f : iterator -> list Value -> Value)
        (t : tree) (root : iterator) (fuel : nat) :
  well_formed getChildrenCount root t = true ->
  depth t <= S fuel ->
  evaluationTraversal getChildrenCount value_init (traced f) fuel root []
  = Some ((value f root t, root + size t),
          map (fun '(m, u) => (m, child_values f m u)) (postorder root t))
  /\ (forall m u, In (m, u) (postorder root t) ->
                  value f m u = f m (child_values f m u)).
Proof.
  intros Hwf Hdepth. split.
  - rewrite (evaluationTraversal_spec getChildrenCount value_init (traced f)
               fuel t root [] (well_formed_flattened _ _ _ Hwf) Hdepth).
    now rewrite eval_tree_traced, invocations_postorder.
  - intros m [cs] _. reflexivity.
Qed.

Lemma evaluationTraversal_values_witness :
  evaluationTraversal Fixture.EntryTraits.getChildrenCount 0%Z
    (traced (fun node w => fold_right Z.add (Z.of_nat node) w)) 3 0 []
  = Some ((21%Z, 7),
          [(1, []); (4, []); (3, [4%Z]); (5, []); (2, [7%Z; 5%Z]);
           (6, []); (0, [1%Z; 14%Z; 6%Z])]).
Proof.
  apply (evaluationTraversal_values Fixture.EntryTraits.getChildrenCount 0%Z
           (fun node w => fold_right Z.add (Z.of_nat node) w)
           Fixture.fixture_tree 0 3).
  - reflexivity.
  - simpl. lia.
Defined.

(** C7: when the root handed to [evaluationTraversal] has child count 0,
    the evaluator is invoked exactly once, with the handle of the root and
    an empty window, and the result of that invocation is the value
    returned. *)
Theorem evaluationTraversal_leaf_root
        (getChildrenCount : iterator -> option size_t)
        {Value : Type} (value_init : Value)
        (f : iterator -> list Value -> Value)
        (root : iterator) (fuel : nat) :
  getChildrenCount root = Some 0%Z ->
  evaluationTraversal getChildrenCount value_init (traced f) fuel root []
  = Some ((f root [], S root), [(root, [])]).
Proof.
  intros Hleaf.
  unfold evaluationTraversal, evaluationTraversal_run, bind.
  rewrite recursiveTraversal_unfold, Hleaf. reflexivity.
Qed.

Lemma evaluationTraversal_leaf_root_witness :
  evaluationTraversal Fixture.EntryTraits.getChildrenCount 0%Z
    (traced (fun node w => Z.of_nat (node + length w))) 0 4 []
  = Some ((4%Z, 5), [(4, [])]).
Proof.
  apply (evaluationTraversal_leaf_root Fixture.EntryTraits.getChildrenCount
           0%Z (fun node w => Z.of_nat (node + length w)) 4 0).
  reflexivity.
Defined.

(** C8: on the fixture tree Directory(3){File(100), Directory(2){
    Directory(1){File(800)}, File(400)}, File(200)}, the fold in which a
    File gives its size and a Directory the sum of the values of its
    children yields 1500 at the root (and the end of the entries as the
    handle). *)
Theorem evaluationTraversal_fixture (extra : nat) :
  evaluationTraversal Fixture.EntryTraits.getChildrenCount 0%Z
    Fixture.sum_of_sizes (3 + extra) 0 tt
  = Some ((1500%Z, Fixture.entries_end), tt).
Proof.
  rewrite (evaluationTraversal_spec Fixture.EntryTraits.getChildrenCount 0%Z
             Fixture.sum_of_sizes (3 + extra) Fixture.fixture_tree 0 tt).
  - reflexivity.
  - reflexivity.
  - simpl. lia.
Qed.

(** C9: on a well-formed flattened preorder tree, the second component of
    the pair [evaluationTraversal] returns is the handle [getNextSibling]
    returns at the root, the handle past the whole subtree of the root;
    and an evaluator that always returns makes the traversal return. *)
Theorem evaluationTraversal_next
        (getChildrenCount : iterator -> option size_t)
        {Value State : Type} (value_init : Value)
        (func : iterator -> list Value -> State -> option (Value * State))
        (t : tree) (root : iterator) (fuel : nat) (s : State) :
  well_formed getChildrenCount root t = true ->
  depth t <= S fuel ->
  (forall v next s',
      evaluationTraversal getChildrenCount value_init func fuel root s
      = Some ((v, next), s') ->
      next = root + size t
      /\ getNextSibling getChildrenCount (size t) root = Some next)
  /\ ((forall node w s0, func node w s0 <> None) ->
      exists v s',
        evaluationTraversal getChildrenCount value_init func fuel root s
        = Some ((v, root + size t), s')).
Proof.
  intros Hwf Hdepth.
  rewrite (evaluationTraversal_spec getChildrenCount value_init func
             fuel t root s (well_formed_flattened _ _ _ Hwf) Hdepth).
  split.
  - intros v next s'.
    destruct (eval_tree func root t s) as [[v0 s0]|]; [|discriminate].
    intros [= _ <- _]. split; [reflexivity|].
    now apply getNextSibling_tree.
  - intros Htotal.
    destruct (eval_tree func root t s) as [[v0 s0]|] eqn:Hv.
    + now exists v0, s0.
    + now apply (eval_tree_total func Htotal) in Hv.
Qed.

Lemma evaluationTraversal_next_witness :
  getNextSibling Fixture.EntryTraits.getChildrenCount 7 0 = Some 7.
Proof.
  destruct (evaluationTraversal_next Fixture.EntryTraits.getChildrenCount
              0%Z Fixture.sum_of_sizes Fixture.fixture_tree 0 3 tt eq_refl)
    as [Hnext _].
  - simpl. lia.
  - apply (Hnext 1500%Z 7 tt). reflexivity.
Defined.

Lemma eval_forest_traced_all {Value} (f : iterator -> list Value -> Value)
      (cs : list tree) (p : iterator) (log : list (iterator * list Value)) :
  eval_forest (eval_tree (traced f)) p cs log
  = Some (forest_map (value f) p cs,
          log ++ concat (forest_map (invocations f) p cs)).
Proof.
  apply eval_forest_traced. apply Forall_forall.
  intros c _ n log'. apply eval_tree_traced.
Qed.

(** C4, as the code has it: a node evaluated by the lambda of
    [evaluationTraversal], any node but the root, increases the length of
    the value buffer by exactly one whatever its arity: once its children
    are evaluated the tail of the buffer holds exactly
    [getChildrenCount] values, the evaluator is invoked with that window,
    the window is removed and the value of the node is pushed. For the
    root the evaluator is invoked with the whole buffer, which holds
    exactly [getChildrenCount] values, and its result is returned: the
    buffer is left as it is. *)
Theorem evaluate_node_net_effect
        (getChildrenCount : iterator -> option size_t)
        {Value : Type} (value_init : Value)
        (f : iterator -> list Value -> Value)
        (t : tree) (n : iterator) (fuel : nat)
        (vs : list Value) (log : list (iterator * list Value)) :
  well_formed getChildrenCount n t = true ->
  depth t <= S fuel ->
  recursiveTraversal getChildrenCount
    (evaluate_node getChildrenCount value_init (traced f) fuel) n (vs, log)
  = Some (n + size t,
          (vs ++ child_values f n t,
           log ++ concat (forest_map (invocations f) (S n) (children t))))
  /\ getChildrenCount n = Some (Z.of_nat (length (child_values f n t)))
  /\ evaluate_node getChildrenCount value_init (traced f) (S fuel) n (vs, log)
     = Some (n + size t,
             (vs ++ [f n (child_values f n t)], log ++ invocations f n t))
  /\ length (vs ++ [f n (child_values f n t)]) = length vs + 1
  /\ evaluationTraversal_run getChildrenCount value_init (traced f) fuel n
       ([], log)
     = Some ((f n (child_values f n t), n + size t),
             (child_values f n t, log ++ invocations f n t))
  /\ Forall (fun '(m, w) => getChildrenCount m = Some (Z.of_nat (length w)))
            (invocations f n t).
Proof.
  intros Hwf Hdepth. pose proof (well_formed_flattened _ _ _ Hwf) as Hflat.
  destruct t as [cs].
  pose proof Hflat as Hnode. apply flattened_at_Node in Hnode as [Hcount Hcs].
  pose proof Hdepth as Hchildren.
  rewrite depth_Node in Hchildren. apply le_S_n in Hchildren.
  repeat split.
  - rewrite recursiveTraversal_Node with (cs := cs) by exact Hflat.
    rewrite (evaluate_children getChildrenCount value_init (traced f) fuel
               (evaluate_node_spec getChildrenCount value_init (traced f) fuel)
               _ _ _ _ Hcs Hchildren).
    rewrite eval_forest_traced_all, size_Node. do 2 f_equal. lia.
  - unfold child_values. simpl children. now rewrite forest_map_length.
  - rewrite (evaluate_node_spec getChildrenCount value_init (traced f)
               (S fuel) (Node cs) n vs log Hflat Hdepth).
    now rewrite eval_tree_traced.
  - rewrite length_app. reflexivity.
  - rewrite (evaluationTraversal_run_spec getChildrenCount value_init
               (traced f) fuel cs n log Hflat Hdepth).
    rewrite eval_forest_traced_all. unfold traced, child_values. simpl.
    now rewrite app_assoc.
  - now apply invocations_windows.
Qed.

Lemma evaluate_node_net_effect_witness :
  evaluate_node Fixture.EntryTraits.getChildrenCount 0%Z
    (traced (fun node w => fold_right Z.add (Z.of_nat node) w)) 3 2
    ([9%Z], [])
  = Some (6, ([9%Z; 14%Z],
              [(4, []); (3, [4%Z]); (5, []); (2, [7%Z; 5%Z])])).
Proof.
  destruct (evaluate_node_net_effect Fixture.EntryTraits.getChildrenCount
              0%Z (fun node w => fold_right Z.add (Z.of_nat node) w)
              (Node [Node [Fixture.leaf]; Fixture.leaf]) 2 2 [9%Z] []
              eq_refl) as (_ & _ & Hnode & _).
  - simpl. lia.
  - exact Hnode.
Defined.

(** Counterexample to C4 as stated, at the root: on the fixture the
    root's evaluator is invoked with the three values of its children,
    which stay in the buffer, and no value is pushed for the root; the
    buffer ends with
    three values, not one. *)
Lemma evaluationTraversal_root_not_replaced :
  well_formed Fixture.EntryTraits.getChildrenCount 0 Fixture.fixture_tree
  = true
  /\ evaluationTraversal_run Fixture.EntryTraits.getChildrenCount 0%Z
       Fixture.sum_of_sizes 3 0 ([], tt)
     = Some ((1500%Z, 7), ([100%Z; 1200%Z; 200%Z], tt))
  /\ length [100%Z; 1200%Z; 200%Z] <> length (@nil Z) + 1.
Proof.
  split; [reflexivity|]. split; [reflexivity|]. simpl. lia.
Qed.

(** C5: on a well-formed flattened preorder tree, [ancestorsTraversal]
    invokes its visitor exactly once per node of the subtree of the root,
    in preorder; the view of each invocation starts at the root and ends
    with the visited node, and its length is the depth of that node, the
    root having depth 1. The handle returned is the one past the
    subtree. *)
Theorem ancestorsTraversal_visits
        (getChildrenCount : iterator -> option size_t)
        (t : tree) (root : iterator) (fuel : nat) :
  well_formed getChildrenCount root t = true ->
  depth t <= S fuel ->
  ancestorsTraversal getChildrenCount recording fuel root []
  = Some (root + size t, ancestor_stacks [] root t)
  /\ length (ancestor_stacks [] root t) = size t
  /\ map (fun view => (last view 0, length view)) (ancestor_stacks [] root t)
     = preorder_depths 1 root t
  /\ Forall (fun view => exists rest, view = root :: rest)
            (ancestor_stacks [] root t).
Proof.
  intros Hwf Hdepth. repeat split.
  - rewrite (ancestorsTraversal_spec getChildrenCount recording fuel t root
               [] (well_formed_flattened _ _ _ Hwf) Hdepth).
    now rewrite visit_all_recording.
  - apply ancestor_stacks_length.
  - apply (ancestor_stacks_depths t [] root).
  - apply (ancestor_stacks_prefix t [] root).
Qed.

Lemma ancestorsTraversal_visits_witness :
  ancestorsTraversal Fixture.EntryTraits.getChildrenCount recording 3 0 []
  = Some (7, [[0]; [0; 1]; [0; 2]; [0; 2; 3]; [0; 2; 3; 4]; [0; 2; 5];
              [0; 6]])
  /\ map (fun view => (last view 0, length view))
         (ancestor_stacks [] 0 Fixture.fixture_tree)
     = [(0, 1); (1, 2); (2, 2); (3, 3); (4, 4); (5, 3); (6, 2)].
Proof.
  destruct (ancestorsTraversal_visits Fixture.EntryTraits.getChildrenCount
              Fixture.fixture_tree 0 3 eq_refl) as (Hrun & _ & Hdepths & _).
  - simpl. lia.
  - split; [exact Hrun|exact Hdepths].
Defined.

(** ** The test cases of tests/tree-algorithms.cpp *)

(** TEST_CASE("getNextSibling"): from README.md on, the siblings are
    README.md, src and LICENSE, and the root has no sibling. *)
Example getNextSibling_test :
  map (getNextSibling Fixture.EntryTraits.getChildrenCount 7) [1; 2; 6; 0]
  = [Some 2; Some 6; Some Fixture.entries_end; Some Fixture.entries_end].
Proof. reflexivity. Qed.

(** TEST_CASE("ancestorsTraversal"): the paths, in preorder. *)
Example ancestorsTraversal_test :
  ancestorsTraversal Fixture.EntryTraits.getChildrenCount
    Fixture.collect_paths 3 0 []
  = Some (Fixture.entries_end, Fixture.expected_paths).
Proof. reflexivity. Qed.

(** ** Further properties of jv::NodeTraits *)


Lemma getNextSibling_loop_step
      (getChildrenCount : iterator -> option size_t)
      (fuel : nat) (remaining : size_t) (node : iterator) (count : size_t) :
  getChildrenCount node = Some count ->
  getNextSibling_loop getChildrenCount (S fuel) remaining node
  = if (0 <? to_size_t (remaining + count - 1))%Z
    then getNextSibling_loop getChildrenCount fuel
           (to_size_t (remaining + count - 1)) (S node)
    else Some (S node).
Proof. intros Hcount. simpl. now rewrite Hcount. Qed.





(** X3: the pending counter is a [size_t] and wraps around: a node that
    reports 2^64 - 1 children followed by a node that reports 2 brings
    the counter back to 0, and the loop returns after two steps. *)
Theorem getNextSibling_counter_wraps
        (getChildrenCount : iterator -> option size_t)
        (n : iterator) (extra : nat) :
  getChildrenCount n = Some (SIZE_MODULUS - 1)%Z ->
  getChildrenCount (S n) = Some 2%Z ->
  getNextSibling getChildrenCount (2 + extra) n = Some (S (S n)).
Proof.
  intros Hfirst Hsecond. unfold getNextSibling.
  change (2 + extra) with (S (S extra)).
  rewrite (getNextSibling_loop_step _ _ _ _ _ Hfirst).
  assert (Hwrap1 : to_size_t (1 + (SIZE_MODULUS - 1) - 1)
                   = (SIZE_MODULUS - 1)%Z) by (vm_compute; reflexivity).
  assert (Hpos : (0 <? SIZE_MODULUS - 1)%Z = true)
    by (vm_compute; reflexivity).
  rewrite Hwrap1, Hpos.
  rewrite (getNextSibling_loop_step _ _ _ _ _ Hsecond).
  assert (Hwrap2 : to_size_t (SIZE_MODULUS - 1 + 2 - 1) = 0%Z)
    by (vm_compute; reflexivity).
  now rewrite Hwrap2.
Qed.

Lemma getNextSibling_counter_wraps_witness :
  getNextSibling
    (fun h => if h =? 0 then Some (SIZE_MODULUS - 1)%Z else Some 2%Z) 2 0
  = Some 2.
Proof.
  apply (getNextSibling_counter_wraps
           (fun h => if h =? 0 then Some (SIZE_MODULUS - 1)%Z else Some 2%Z)
           0 0); reflexivity.
Defined.

(** X4: the sibling loop of the test, started at the first tree of a
    well-formed flattened forest with [end] the handle past the forest,
    calls the visitor at the handle of each tree of the forest, in order,
    and then stops. *)
Theorem for_each_sibling_handles
        (getChildrenCount : iterator -> option size_t)
        {State : Type} (visit : iterator -> State -> option State)
        (ts : list tree) (skip_fuel : nat) :
  forall (p fuel : nat) (s : State),
    forest_flattened_at getChildrenCount p ts = true ->
    (Z.of_nat (forest_size ts) < SIZE_MODULUS)%Z ->
    forest_size ts <= skip_fuel ->
    length ts < fuel ->
    for_each_sibling getChildrenCount visit skip_fuel fuel p
      (p + forest_size ts) s
    = visit_each visit (forest_handles p ts) s.
Proof.
  induction ts as [|t ts IH]; intros p fuel s Hflat Hfit Hskip Hfuel.
  - destruct fuel as [|fuel]; [simpl in Hfuel; lia|].
    unfold forest_size. simpl. now rewrite Nat.add_0_r, Nat.eqb_refl.
  - destruct fuel as [|fuel]; [simpl in Hfuel; lia|].
    apply forest_flattened_at_cons in Hflat as [Ht Hts].
    rewrite forest_size_cons in *. pose proof (size_pos t) as Hpos.
    simpl for_each_sibling.
    destruct (Nat.eqb_spec p (p + (size t + forest_size ts))) as [Heq|_];
      [lia|].
    unfold forest_handles. simpl forest_map. simpl visit_each.
    destruct (visit p s) as [s'|]; [|reflexivity].
    rewrite (getNextSibling_tree getChildrenCount t p skip_fuel).
    + rewrite Nat.add_assoc. apply IH.
      * exact Hts.
      * lia.
      * lia.
      * simpl in Hfuel. lia.
    + apply well_formed_parts. split; [exact Ht|lia].
    + lia.
Qed.

Lemma for_each_sibling_handles_witness :
  for_each_sibling Fixture.EntryTraits.getChildrenCount push_name 7 4 1
    (1 + 6) []
  = visit_each push_name [1; 2; 6] [].
Proof.
  apply (for_each_sibling_handles Fixture.EntryTraits.getChildrenCount
           push_name (children Fixture.fixture_tree) 7 1 4 []).
  - reflexivity.
  - reflexivity.
  - unfold forest_size. simpl. lia.
  - simpl. lia.
Defined.

(** ** Further properties of the traversals *)








(** X8: on a well-formed flattened preorder tree the [resize] of the
    value buffer only ever truncates: the value-initialised [Value] it
    would pad with has no effect on the result. *)
Theorem evaluationTraversal_padding_unused
        (getChildrenCount : iterator -> option size_t)
        {Value State : Type} (init1 init2 : Value)
        (func : iterator -> list Value -> State -> option (Value * State))
        (t : tree) (root : iterator) (fuel : nat) (s : State) :
  well_formed getChildrenCount root t = true ->
  depth t <= S fuel ->
  evaluationTraversal getChildrenCount init1 func fuel root s
  = evaluationTraversal getChildrenCount init2 func fuel root s.
Proof.
  intros Hwf Hdepth. pose proof (well_formed_flattened _ _ _ Hwf) as Hflat.
  now rewrite !(evaluationTraversal_spec getChildrenCount _ func fuel t
                  root s Hflat Hdepth).
Qed.

Lemma evaluationTraversal_padding_unused_witness :
  evaluationTraversal Fixture.EntryTraits.getChildrenCount 0%Z
    Fixture.sum_of_sizes 3 0 tt
  = evaluationTraversal Fixture.EntryTraits.getChildrenCount 77%Z
      Fixture.sum_of_sizes 3 0 tt.
Proof.
  apply (evaluationTraversal_padding_unused
           Fixture.EntryTraits.getChildrenCount 0%Z 77%Z
           Fixture.sum_of_sizes Fixture.fixture_tree 0 3 tt).
  - reflexivity.
  - simpl. lia.
Defined.

(** *** Depth of the recursion *)

Section RecursionDepth.
Variable getChildrenCount : iterator -> option size_t.
Context {Value State : Type}.
Variable value_init : Value.
Variable func : iterator -> list Value -> State -> option (Value * State).

Lemma evaluate_children_shallow (fuel : nat) :
  (forall t n vs s,
      flattened_at getChildrenCount n t = true ->
      fuel < depth t ->
      evaluate_node getChildrenCount value_init func fuel n (vs, s) = None) ->
  forall cs p vs s,
    forest_flattened_at getChildrenCount p cs = true ->
    fuel < list_max (map depth cs) ->
    recursiveTraversal_loop
      (evaluate_node getChildrenCount value_init func fuel) (length cs) p
      (vs, s)
    = None.
Proof.
  intros IH. induction cs as [|c cs IHcs]; intros p vs s Hflat Hdepth.
  - simpl in Hdepth. lia.
  - apply forest_flattened_at_cons in Hflat as [Hc Hcs].
    simpl length. rewrite recursiveTraversal_loop_cons.
    destruct (le_lt_dec (depth c) fuel) as [Hshallow|Hdeep].
    + rewrite (evaluate_node_spec getChildrenCount value_init func fuel
                 c p vs s Hc Hshallow).
      destruct (eval_tree func p c s) as [[v s1]|]; [|reflexivity].
      apply IHcs; [exact Hcs|]. simpl in Hdepth. lia.
    + now rewrite (IH c p vs s Hc Hdeep).
Qed.

Lemma evaluate_node_shallow (fuel : nat) :
  forall t n vs s,
    flattened_at getChildrenCount n t = true ->
    fuel < depth t ->
    evaluate_node getChildrenCount value_init func fuel n (vs, s) = None.
Proof.
  induction fuel as [|fuel IH]; intros [cs] n vs s Hflat Hdepth.
  - reflexivity.
  - rewrite depth_Node in Hdepth. apply Nat.succ_lt_mono in Hdepth.
    rewrite evaluate_node_step.
    rewrite recursiveTraversal_Node with (cs := cs) by exact Hflat.
    apply flattened_at_Node in Hflat as [_ Hcs].
    now rewrite (evaluate_children_shallow fuel IH _ _ _ _ Hcs Hdepth).
Qed.

Lemma evaluationTraversal_shallow (fuel : nat) (t : tree) (root : iterator)
      (s : State) :
  flattened_at getChildrenCount root t = true ->
  S fuel < depth t ->
  evaluationTraversal getChildrenCount value_init func fuel root s = None.
Proof.
  destruct t as [cs]. intros Hflat Hdepth.
  rewrite depth_Node in Hdepth. apply Nat.succ_lt_mono in Hdepth.
  unfold evaluationTraversal, evaluationTraversal_run, bind.
  rewrite recursiveTraversal_Node with (cs := cs) by exact Hflat.
  apply flattened_at_Node in Hflat as [_ Hcs].
  now rewrite (evaluate_children_shallow fuel (evaluate_node_shallow fuel)
                 _ _ _ _ Hcs Hdepth).
Qed.
End RecursionDepth.

(** X9: the recursion of [evaluationTraversal] is as deep as the tree:
    on a well-formed flattened preorder tree and with an evaluator that
    always returns, the traversal returns exactly when the lambda may
    nest as many calls as the tree has levels below the root. *)
Theorem evaluationTraversal_recursion_depth
        (getChildrenCount : iterator -> option size_t)
        {Value State : Type} (value_init : Value)
        (func : iterator -> list Value -> State -> option (Value * State))
        (t : tree) (root : iterator) (fuel : nat) (s : State) :
  well_formed getChildrenCount root t = true ->
  (forall node w s0, func node w s0 <> None) ->
  evaluationTraversal getChildrenCount value_init func fuel root s <> None
  <-> depth t <= S fuel.
Proof.
  intros Hwf Htotal. pose proof (well_formed_flattened _ _ _ Hwf) as Hflat.
  split.
  - intros Hrun. destruct (le_lt_dec (depth t) (S fuel)) as [Hle|Hgt];
      [exact Hle|].
    exfalso. apply Hrun. now apply evaluationTraversal_shallow with (t := t).
  - intros Hdepth.
    rewrite (evaluationTraversal_spec getChildrenCount value_init func fuel
               t root s Hflat Hdepth).
    destruct (eval_tree func root t s) as [[v s']|] eqn:Hv; [discriminate|].
    now apply (eval_tree_total func Htotal) in Hv.
Qed.

Lemma evaluationTraversal_recursion_depth_witness :
  evaluationTraversal Fixture.EntryTraits.getChildrenCount 0%Z
    (pure_evaluator (fun _ w => Z.of_nat (length w))) 3 0 tt
  <> None
  <-> depth Fixture.fixture_tree <= 4.
Proof.
  apply (evaluationTraversal_recursion_depth
           Fixture.EntryTraits.getChildrenCount 0%Z
           (pure_evaluator (fun _ w => Z.of_nat (length w)))
           Fixture.fixture_tree 0 3 tt).
  - reflexivity.
  - intros node w s0. discriminate.
Defined.

(** ** split_tokens *)

Arguments PolishNotation.in_set : simpl never.
Arguments is_space : simpl never.

Lemma min_pos_S (pos : option nat) (size : nat) :
  PolishNotation.min_pos (option_map S pos) (S size)
  = S (PolishNotation.min_pos pos size).
Proof. destruct pos; reflexivity. Qed.

Lemma remove_prefix_spaces (str : list Ascii.ascii) :
  PolishNotation.remove_prefix
    (PolishNotation.min_pos
       (PolishNotation.find_first_not_of str PolishNotation.whitespace)
       (length str)) str
  = drop_spaces str.
Proof.
  induction str as [|c str IH]; [reflexivity|].
  simpl PolishNotation.find_first_not_of. simpl drop_spaces. unfold is_space.
  destruct (PolishNotation.in_set PolishNotation.whitespace c).
  - simpl length. rewrite min_pos_S. exact IH.
  - reflexivity.
Qed.

Lemma substr_word (str : list Ascii.ascii) :
  PolishNotation.substr str 0
    (PolishNotation.min_pos
       (PolishNotation.find_first_of str PolishNotation.whitespace)
       (length str))
  = take_word str.
Proof.
  unfold PolishNotation.substr. simpl skipn.
  induction str as [|c str IH]; [reflexivity|].
  simpl PolishNotation.find_first_of. simpl take_word. unfold is_space.
  destruct (PolishNotation.in_set PolishNotation.whitespace c).
  - reflexivity.
  - simpl length. rewrite min_pos_S. simpl. now rewrite IH.
Qed.

Lemma remove_prefix_word (str : list Ascii.ascii) :
  PolishNotation.remove_prefix
    (PolishNotation.min_pos
       (PolishNotation.find_first_of str PolishNotation.whitespace)
       (length str)) str
  = drop_word str.
Proof.
  induction str as [|c str IH]; [reflexivity|].
  simpl PolishNotation.find_first_of. simpl drop_word. unfold is_space.
  destruct (PolishNotation.in_set PolishNotation.whitespace c).
  - reflexivity.
  - simpl length. rewrite min_pos_S. exact IH.
Qed.

(** One iteration of the loop: skip the spaces, then take a word. *)
Lemma split_tokens_loop_unfold (fuel : nat) (str : list Ascii.ascii)
      (result : list (list Ascii.ascii)) :
  PolishNotation.split_tokens_loop (S fuel) str result
  = match drop_spaces str with
    | [] => Some result
    | c :: rest =>
        PolishNotation.split_tokens_loop fuel (drop_word (c :: rest))
          (result ++ [take_word (c :: rest)])
    end.
Proof.
  simpl PolishNotation.split_tokens_loop. rewrite remove_prefix_spaces.
  destruct (drop_spaces str) as [|c rest]; [reflexivity|].
  now rewrite substr_word, remove_prefix_word.
Qed.

Lemma drop_spaces_length (str : list Ascii.ascii) :
  length (drop_spaces str) <= length str.
Proof.
  induction str as [|c str IH]; simpl; [lia|].
  destruct (is_space c); simpl; lia.
Qed.

Lemma drop_spaces_head (str rest : list Ascii.ascii) (c : Ascii.ascii) :
  drop_spaces str = c :: rest -> is_space c = false.
Proof.
  induction str as [|d str IH]; simpl; [discriminate|].
  destruct (is_space d) eqn:Hd; [exact IH|].
  now intros [= <- _].
Qed.

Lemma drop_word_length (str : list Ascii.ascii) :
  length (drop_word str) <= length str.
Proof.
  induction str as [|c str IH]; simpl; [lia|].
  destruct (is_space c); simpl; lia.
Qed.

Lemma take_word_free (str : list Ascii.ascii) :
  forallb (fun c => negb (is_space c)) (take_word str) = true.
Proof.
  induction str as [|c str IH]; simpl; [reflexivity|].
  destruct (is_space c) eqn:Hc; simpl; [reflexivity|].
  now rewrite Hc, IH.
Qed.

Lemma take_word_token (c : Ascii.ascii) (rest : list Ascii.ascii) :
  is_space c = false -> is_token (take_word (c :: rest)) = true.
Proof.
  intros Hc. pose proof (take_word_free (c :: rest)) as Hfree.
  simpl in *. rewrite Hc in *. exact Hfree.
Qed.

Lemma filter_drop_spaces (str : list Ascii.ascii) :
  filter (fun c => negb (is_space c)) (drop_spaces str)
  = filter (fun c => negb (is_space c)) str.
Proof.
  induction str as [|c str IH]; simpl; [reflexivity|].
  destruct (is_space c) eqn:Hc; simpl; [exact IH|].
  now rewrite Hc.
Qed.

Lemma filter_word (str : list Ascii.ascii) :
  filter (fun c => negb (is_space c)) str
  = take_word str ++ filter (fun c => negb (is_space c)) (drop_word str).
Proof.
  induction str as [|c str IH]; simpl; [reflexivity|].
  destruct (is_space c) eqn:Hc; simpl.
  - now rewrite Hc.
  - now rewrite IH.
Qed.

Lemma split_tokens_loop_tokens (fuel : nat) :
  forall str (result : list (list Ascii.ascii)),
    length str < fuel ->
    exists l : list (list Ascii.ascii),
      PolishNotation.split_tokens_loop fuel str result = Some (result ++ l)
      /\ Forall (fun t => is_token t = true) l
      /\ concat l = filter (fun c => negb (is_space c)) str.
Proof.
  induction fuel as [|fuel IH]; intros str result Hfuel; [lia|].
  rewrite split_tokens_loop_unfold.
  pose proof (drop_spaces_length str) as Hlen.
  rewrite <- (filter_drop_spaces str).
  destruct (drop_spaces str) as [|c rest] eqn:Hdrop.
  - exists []. rewrite app_nil_r. repeat split. constructor.
  - cbv beta match. pose proof (drop_spaces_head _ _ _ Hdrop) as Hc.
    assert (Hword : length (drop_word (c :: rest)) < fuel).
    { simpl. rewrite Hc. pose proof (drop_word_length rest).
      simpl in Hlen. lia. }
    destruct (IH (drop_word (c :: rest))
                 (result ++ [take_word (c :: rest)]) Hword)
      as (l & Hrun & Htokens & Hconcat).
    exists (take_word (c :: rest) :: l). repeat split.
    + now rewrite Hrun, <- app_assoc.
    + constructor; [now apply take_word_token|exact Htokens].
    + simpl concat. rewrite Hconcat. symmetry. apply filter_word.
Qed.

(** X10: [split_tokens] returns for every string; every token it returns
    has at least one character and no whitespace, and the tokens put end
    to end are the characters of the string that are not whitespace, in
    their order. *)
Theorem split_tokens_tokens (str : list Ascii.ascii) :
  exists l : list (list Ascii.ascii),
    PolishNotation.split_tokens str = Some l
    /\ Forall (fun t => is_token t = true) l
    /\ concat l = filter (fun c => negb (is_space c)) str.
Proof.
  unfold PolishNotation.split_tokens.
  destruct (split_tokens_loop_tokens (S (length str)) str [])
    as (l & Hrun & Htokens & Hconcat); [lia|].
  exists l. now repeat split.
Qed.

Lemma drop_spaces_app (lead str : list Ascii.ascii) :
  forallb is_space lead = true ->
  drop_spaces (lead ++ str) = drop_spaces str.
Proof.
  induction lead as [|c lead IH]; simpl; [reflexivity|].
  intros Hlead. apply andb_true_iff in Hlead as [Hc Hlead].
  rewrite Hc. now apply IH.
Qed.

Lemma drop_spaces_all (str : list Ascii.ascii) :
  forallb is_space str = true -> drop_spaces str = [].
Proof.
  intros Hall. rewrite <- (app_nil_r str). now rewrite drop_spaces_app.
Qed.

Lemma take_word_app (t rest : list Ascii.ascii) :
  forallb (fun c => negb (is_space c)) t = true ->
  at_boundary rest ->
  take_word (t ++ rest) = t /\ drop_word (t ++ rest) = rest.
Proof.
  intros Hfree Hrest. induction t as [|c t IH]; simpl.
  - destruct rest as [|d rest]; [now split|]. simpl in *.
    now rewrite Hrest.
  - simpl in Hfree. apply andb_true_iff in Hfree as [Hc Hfree].
    apply negb_true_iff in Hc. rewrite Hc.
    destruct (IH Hfree) as [-> ->]. now split.
Qed.

Lemma is_token_parts (t : list Ascii.ascii) :
  is_token t = true ->
  exists c rest,
    t = c :: rest /\ is_space c = false
    /\ forallb (fun c => negb (is_space c)) t = true.
Proof.
  destruct t as [|c rest]; [discriminate|]. intros Htoken.
  exists c, rest. repeat split; [|exact Htoken].
  simpl in Htoken. apply andb_true_iff in Htoken as [Hc _].
  now apply negb_true_iff in Hc.
Qed.

Lemma is_separator_parts (sep : list Ascii.ascii) :
  is_separator sep = true ->
  forallb is_space sep = true /\ forall rest, at_boundary (sep ++ rest).
Proof.
  destruct sep as [|c sep]; [discriminate|]. intros Hsep. split.
  - exact Hsep.
  - intros rest. simpl in *. now apply andb_true_iff in Hsep as [Hc _].
Qed.

(** One iteration of the loop at a token. *)
Lemma split_tokens_loop_token (fuel : nat)
      (lead t rest : list Ascii.ascii) (result : list (list Ascii.ascii)) :
  forallb is_space lead = true ->
  is_token t = true ->
  at_boundary rest ->
  PolishNotation.split_tokens_loop (S fuel) (lead ++ t ++ rest) result
  = PolishNotation.split_tokens_loop fuel rest (result ++ [t]).
Proof.
  intros Hlead Htoken Hrest.
  destruct (is_token_parts _ Htoken) as (c & t' & -> & Hc & Hfree).
  rewrite split_tokens_loop_unfold, (drop_spaces_app _ _ Hlead).
  simpl app at 1. simpl drop_spaces. rewrite Hc.
  change (c :: t' ++ rest) with ((c :: t') ++ rest).
  now destruct (take_word_app _ _ Hfree Hrest) as [-> ->].
Qed.

Lemma split_tokens_loop_unwords
      (sep trail : list Ascii.ascii) (l : list (list Ascii.ascii)) :
  is_separator sep = true ->
  forallb is_space trail = true ->
  Forall (fun t => is_token t = true) l ->
  forall fuel lead (result : list (list Ascii.ascii)),
    forallb is_space lead = true ->
    length l < fuel ->
    PolishNotation.split_tokens_loop fuel (lead ++ unwords sep l ++ trail)
      result
    = Some (result ++ l).
Proof.
  intros Hsep Htrail Htokens.
  destruct (is_separator_parts _ Hsep) as [Hspaces Hboundary].
  induction Htokens as [|t l Ht _ IH]; intros fuel lead result Hlead Hfuel.
  - destruct fuel as [|fuel]; [simpl in Hfuel; lia|].
    rewrite split_tokens_loop_unfold. simpl unwords. simpl app.
    rewrite (drop_spaces_app _ _ Hlead), (drop_spaces_all _ Htrail).
    now rewrite app_nil_r.
  - destruct fuel as [|fuel]; [simpl in Hfuel; lia|].
    simpl in Hfuel. apply Nat.succ_lt_mono in Hfuel.
    destruct l as [|u l].
    + simpl unwords.
      rewrite (split_tokens_loop_token fuel lead t trail result Hlead Ht).
      * specialize (IH fuel [] (result ++ [t]) eq_refl Hfuel).
        simpl in IH. rewrite IH. now rewrite <- app_assoc.
      * destruct trail as [|c trail]; simpl; [exact I|].
        simpl in Htrail. now apply andb_true_iff in Htrail as [Hc _].
    + change (unwords sep (t :: u :: l))
        with (t ++ sep ++ unwords sep (u :: l)).
      rewrite <- !app_assoc.
      rewrite (split_tokens_loop_token fuel lead t _ result Hlead Ht).
      * rewrite (IH fuel sep (result ++ [t]) Hspaces Hfuel).
        now rewrite <- app_assoc.
      * apply Hboundary.
Qed.

Lemma unwords_length (sep : list Ascii.ascii) (l : list (list Ascii.ascii)) :
  Forall (fun t => is_token t = true) l ->
  length l <= length (unwords sep l).
Proof.
  induction 1 as [|t l Ht _ IH]; [simpl; lia|].
  destruct (is_token_parts _ Ht) as (c & t' & -> & _ & _).
  destruct l as [|u l]; [simpl; lia|].
  change (unwords sep ((c :: t') :: u :: l))
    with ((c :: t') ++ sep ++ unwords sep (u :: l)).
  rewrite !length_app. simpl length in *. lia.
Qed.

Lemma split_tokens_unwords_all
      (lead sep trail : list Ascii.ascii) (l : list (list Ascii.ascii)) :
  forallb is_space lead = true ->
  is_separator sep = true ->
  forallb is_space trail = true ->
  Forall (fun t => is_token t = true) l ->
  PolishNotation.split_tokens (lead ++ unwords sep l ++ trail) = Some l.
Proof.
  intros Hlead Hsep Htrail Htokens. unfold PolishNotation.split_tokens.
  rewrite (split_tokens_loop_unwords sep trail l Hsep Htrail Htokens);
    [reflexivity|exact Hlead|].
  pose proof (unwords_length sep l Htokens). rewrite !length_app. lia.
Qed.

(** X11: tokens written one after the other, with any whitespace before
    the first and after the last and a separator of whitespace between
    two, are what [split_tokens] returns; a string of whitespace alone,
    the empty one included, has no token. *)
Theorem split_tokens_unwords
        (lead sep trail : list Ascii.ascii) (l : list (list Ascii.ascii)) :
  forallb is_space lead = true ->
  is_separator sep = true ->
  forallb is_space trail = true ->
  Forall (fun t => is_token t = true) l ->
  PolishNotation.split_tokens (lead ++ unwords sep l ++ trail) = Some l
  /\ PolishNotation.split_tokens (lead ++ trail) = Some [].
Proof.
  intros Hlead Hsep Htrail Htokens. split.
  - now apply split_tokens_unwords_all.
  - apply (split_tokens_unwords_all lead sep trail [] Hlead Hsep Htrail).
    constructor.
Qed.

Lemma split_tokens_unwords_witness :
  PolishNotation.split_tokens PolishNotation.expression1
  = Some PolishNotation.expression1_tokens
  /\ PolishNotation.split_tokens [] = Some [].
Proof.
  apply (split_tokens_unwords [] PolishNotation.blank []
           PolishNotation.expression1_tokens).
  - reflexivity.
  - reflexivity.
  - reflexivity.
  - repeat constructor.
Defined.

(** ** The nodes of the example *)

Lemma find_token_Some (table : list (list Ascii.ascii))
      (token : list Ascii.ascii) :
  forall index,
    PolishNotation.find_token table token = Some index ->
    nth_error table index = Some token.
Proof.
  induction table as [|entry table IH]; intros index; simpl; [discriminate|].
  unfold PolishNotation.string_view_eqb.
  destruct (list_eq_dec Ascii.ascii_dec entry token) as [->|_].
  - now intros [= <-].
  - destruct (PolishNotation.find_token table token) as [i|];
      [|discriminate].
    intros [= <-]. now apply IH.
Qed.

Lemma find_token_None (table : list (list Ascii.ascii))
      (token : list Ascii.ascii) :
  PolishNotation.find_token table token = None <-> ~ In token table.
Proof.
  induction table as [|entry table IH]; simpl; [tauto|].
  unfold PolishNotation.string_view_eqb.
  destruct (list_eq_dec Ascii.ascii_dec entry token) as [->|Hne].
  - split; [discriminate|]. intros Hnot. exfalso. apply Hnot. now left.
  - destruct (PolishNotation.find_token table token) as [i|].
    + split; [discriminate|]. intros Hnot.
      assert (Hnone : Some i = None); [|discriminate Hnone].
      apply IH. intros Hin. apply Hnot. now right.
    + split; [|reflexivity]. intros _ [Heq|Hin]; [now apply Hne|].
      now apply IH in Hin.
Qed.

Lemma make_Operation_token_of_Op (op : PolishNotation.Op) :
  PolishNotation.make_Operation (token_of_Op op) = Some op.
Proof. destruct op; reflexivity. Qed.

Lemma token_of_Op_In (op : PolishNotation.Op) :
  In (token_of_Op op) PolishNotation.tokens.
Proof. destruct op; simpl; tauto. Qed.

Lemma make_Operation_Some (token : list Ascii.ascii) (op : PolishNotation.Op) :
  PolishNotation.make_Operation token = Some op -> token = token_of_Op op.
Proof.
  unfold PolishNotation.make_Operation.
  destruct (PolishNotation.find_token PolishNotation.tokens token)
    as [index|] eqn:Hfind; [|discriminate].
  apply find_token_Some in Hfind. intros Hop.
  do 6 (destruct index as [|index];
        [injection Hop as <-; now injection Hfind as <-|]).
  discriminate.
Qed.

Lemma make_Operation_None (token : list Ascii.ascii) :
  PolishNotation.make_Operation token = None
  <-> ~ In token PolishNotation.tokens.
Proof.
  rewrite <- find_token_None. unfold PolishNotation.make_Operation.
  destruct (PolishNotation.find_token PolishNotation.tokens token)
    as [index|] eqn:Hfind; [|tauto].
  split; [|discriminate]. intros Hop. exfalso.
  apply find_token_Some in Hfind.
  do 6 (destruct index as [|index]; [discriminate|]).
  destruct index; discriminate.
Qed.

(** X12: the constructor of [Operation] accepts exactly the six tokens of
    its table, each one as its own operation, and throws on every other
    token. *)
Theorem make_Operation_accepts (token : list Ascii.ascii) :
  (forall op,
      PolishNotation.make_Operation token = Some op
      <-> token = token_of_Op op)
  /\ (PolishNotation.make_Operation token = None
      <-> ~ In token PolishNotation.tokens).
Proof.
  split.
  - intros op. split.
    + apply make_Operation_Some.
    + intros ->. apply make_Operation_token_of_Op.
  - apply make_Operation_None.
Qed.

(** ** Evaluation of expressions in prefix notation *)

Lemma to_size_t_small (z : Z) :
  (0 <= z < 3)%Z -> to_size_t z = z.
Proof.
  intros Hz. unfold to_size_t. apply Z.mod_small.
  rewrite SIZE_MODULUS_value. lia.
Qed.

Lemma nth_error_middle {A} (pre post : list A) (x : A) :
  nth_error (pre ++ x :: post) (length pre) = Some x.
Proof.
  rewrite nth_error_app2 by lia. now rewrite Nat.sub_diag.
Qed.

Section PrefixFacts.
Variable F : PolishNotation.Arithmetic.

Lemma size_shape (e : expr F) : size (shape e) = length (prefix_nodes e).
Proof.
  induction e as [token value|e IH|op l IHl r IHr]; simpl.
  - reflexivity.
  - rewrite IH. lia.
  - rewrite length_app, IHl, IHr. lia.
Qed.

Lemma getNbChildren_binary (op : BinaryOp) :
  PolishNotation.getNbChildren
    (PolishNotation.Operation (F := F) (Op_of_BinaryOp op)) = 2%Z.
Proof. destruct op; reflexivity. Qed.

Lemma getChildrenCount_middle
      (pre post : list (PolishNotation.Node F)) (x : PolishNotation.Node F)
      (k : nat) :
  PolishNotation.getNbChildren x = Z.of_nat k ->
  k < 3 ->
  count_is (PolishNotation.getChildrenCount (pre ++ x :: post))
    (length pre) k = true.
Proof.
  intros Hcount Hk. apply count_is_true.
  unfold PolishNotation.getChildrenCount.
  rewrite nth_error_middle, Hcount, to_size_t_small; [reflexivity|lia].
Qed.

(** The nodes of an expression, wherever they sit in a tree, flatten its
    shape. *)
Lemma prefix_nodes_flattened (e : expr F) :
  forall pre post,
    flattened_at
      (PolishNotation.getChildrenCount (pre ++ prefix_nodes e ++ post))
      (length pre) (shape e) = true.
Proof.
  induction e as [token value|e IH|op l IHl r IHr]; intros pre post.
  - simpl. rewrite (getChildrenCount_middle pre post _ 0); [|reflexivity|lia].
    reflexivity.
  - simpl prefix_nodes. simpl shape. apply flattened_at_Node. split.
    + apply count_is_true. simpl app.
      apply (getChildrenCount_middle pre _ _ 1); [reflexivity|lia].
    + apply forest_flattened_at_cons. split; [|reflexivity].
      specialize (IH (pre ++ [PolishNotation.Operation PolishNotation.Sqrt])
                     post).
      rewrite length_app, Nat.add_1_r, <- app_assoc in IH. exact IH.
  - simpl prefix_nodes. simpl shape. apply flattened_at_Node. split.
    + apply count_is_true. simpl app.
      apply (getChildrenCount_middle pre _ _ 2);
        [apply getNbChildren_binary|lia].
    + apply forest_flattened_at_cons. split.
      * specialize
          (IHl (pre ++ [PolishNotation.Operation (Op_of_BinaryOp op)])
               (prefix_nodes r ++ post)).
        rewrite length_app, Nat.add_1_r, <- !app_assoc in IHl.
        simpl app in *. rewrite <- app_assoc. exact IHl.
      * apply forest_flattened_at_cons. split; [|reflexivity].
        specialize
          (IHr (pre ++ PolishNotation.Operation (Op_of_BinaryOp op)
                    :: prefix_nodes l) post).
        rewrite length_app in IHr. simpl length in IHr.
        rewrite <- app_assoc in IHr. simpl app in *.
        rewrite <- app_assoc, size_shape.
        replace (S (length pre) + length (prefix_nodes l))
          with (length pre + S (length (prefix_nodes l))) by lia.
        exact IHr.
Qed.

Lemma getValue_binary (op : BinaryOp) (a b : PolishNotation.double F) :
  PolishNotation.getValue
    (PolishNotation.Operation (Op_of_BinaryOp op)) [a; b]
  = Some (apply_BinaryOp F op a b).
Proof. destruct op; reflexivity. Qed.

(** The recursive evaluation of these nodes is the value the expression
    stands for. *)
Lemma prefix_nodes_eval (e : expr F) :
  forall pre post,
    eval_tree (PolishNotation.node_value (pre ++ prefix_nodes e ++ post))
      (length pre) (shape e) tt
    = Some (denote e, tt).
Proof.
  induction e as [token value|e IH|op l IHl r IHr]; intros pre post.
  - simpl. unfold PolishNotation.node_value.
    now rewrite nth_error_middle.
  - simpl prefix_nodes. simpl shape. simpl eval_tree.
    specialize (IH (pre ++ [PolishNotation.Operation PolishNotation.Sqrt])
                   post).
    rewrite length_app, Nat.add_1_r, <- app_assoc in IH. simpl app in *.
    rewrite IH. unfold PolishNotation.node_value.
    now rewrite nth_error_middle.
  - simpl prefix_nodes. simpl shape. simpl eval_tree.
    specialize
      (IHl (pre ++ [PolishNotation.Operation (Op_of_BinaryOp op)])
           (prefix_nodes r ++ post)).
    rewrite length_app, Nat.add_1_r, <- !app_assoc in IHl.
    simpl app in *. rewrite <- app_assoc, IHl.
    specialize
      (IHr (pre ++ PolishNotation.Operation (Op_of_BinaryOp op)
                :: prefix_nodes l) post).
    rewrite length_app in IHr. simpl length in IHr.
    rewrite <- app_assoc in IHr. simpl app in IHr.
    rewrite size_shape.
    replace (length pre + S (length (prefix_nodes l)))
      with (S (length pre + length (prefix_nodes l))) in IHr by lia.
    rewrite IHr. unfold PolishNotation.node_value.
    now rewrite nth_error_middle, getValue_binary.
Qed.

Lemma evaluate_prefix_nodes (e : expr F)
      (rest : list (PolishNotation.Node F)) (fuel : nat) :
  depth (shape e) <= S fuel ->
  PolishNotation.evaluate F fuel (prefix_nodes e ++ rest) = Some (denote e).
Proof.
  intros Hdepth. unfold PolishNotation.evaluate.
  rewrite (evaluationTraversal_spec
             (PolishNotation.getChildrenCount (prefix_nodes e ++ rest))
             (PolishNotation.zero F)
             (PolishNotation.node_value (prefix_nodes e ++ rest))
             fuel (shape e) 0 tt
             (prefix_nodes_flattened e [] rest) Hdepth).
  pose proof (prefix_nodes_eval e [] rest) as Hvalue.
  simpl in Hvalue. now rewrite Hvalue.
Qed.

Lemma token_to_node_operation (op : PolishNotation.Op) :
  operations_apart F ->
  PolishNotation.token_to_node F (token_of_Op op)
  = Some (PolishNotation.Operation op).
Proof.
  intros Hapart. unfold PolishNotation.token_to_node.
  pose proof (Hapart _ (token_of_Op_In op)) as Hne.
  destruct (PolishNotation.strtod F (token_of_Op op)) as [value consumed].
  simpl in Hne. apply Nat.eqb_neq in Hne. rewrite Hne.
  now rewrite make_Operation_token_of_Op.
Qed.

Lemma transform_app (a b : list (list Ascii.ascii)) :
  PolishNotation.transform F (a ++ b)
  = match PolishNotation.transform F a, PolishNotation.transform F b with
    | Some x, Some y => Some (x ++ y)
    | _, _ => None
    end.
Proof.
  induction a as [|token a IH]; simpl.
  - now destruct (PolishNotation.transform F b).
  - destruct (PolishNotation.token_to_node F token); [|reflexivity].
    rewrite IH. destruct (PolishNotation.transform F a); [|reflexivity].
    now destruct (PolishNotation.transform F b).
Qed.

Lemma transform_prefix_tokens (e : expr F) :
  operations_apart F ->
  literals_read e ->
  PolishNotation.transform F (prefix_tokens e) = Some (prefix_nodes e).
Proof.
  intros Hapart. induction e as [token value|e IH|op l IHl r IHr];
    intros Hread.
  - destruct Hread as [_ Hstrtod]. simpl.
    unfold PolishNotation.token_to_node.
    now rewrite Hstrtod, Nat.eqb_refl.
  - simpl prefix_tokens. simpl PolishNotation.transform.
    now rewrite (token_to_node_operation _ Hapart), (IH Hread).
  - destruct Hread as [Hl Hr].
    simpl prefix_tokens. simpl PolishNotation.transform.
    rewrite (token_to_node_operation _ Hapart), transform_app.
    now rewrite (IHl Hl), (IHr Hr).
Qed.

Lemma token_of_Op_token (op : PolishNotation.Op) :
  is_token (token_of_Op op) = true.
Proof. destruct op; reflexivity. Qed.

Lemma prefix_tokens_tokens (e : expr F) :
  literals_read e ->
  Forall (fun t => is_token t = true) (prefix_tokens e).
Proof.
  induction e as [token value|e IH|op l IHl r IHr]; intros Hread.
  - destruct Hread as [Htoken _]. now repeat constructor.
  - constructor; [apply token_of_Op_token|now apply IH].
  - destruct Hread as [Hl Hr].
    constructor; [apply token_of_Op_token|].
    apply Forall_app. split; [now apply IHl|now apply IHr].
Qed.

Lemma parse_prefix_tokens (e : expr F) (lead sep trail : list Ascii.ascii) :
  operations_apart F ->
  literals_read e ->
  forallb is_space lead = true ->
  is_separator sep = true ->
  forallb is_space trail = true ->
  PolishNotation.parse_expression F
    (lead ++ unwords sep (prefix_tokens e) ++ trail)
  = Some (prefix_nodes e).
Proof.
  intros Hapart Hread Hlead Hsep Htrail.
  unfold PolishNotation.parse_expression.
  rewrite (split_tokens_unwords_all lead sep trail (prefix_tokens e)
             Hlead Hsep Htrail (prefix_tokens_tokens e Hread)).
  now apply transform_prefix_tokens.
Qed.
End PrefixFacts.

(** X13: [evaluate] on the nodes of an expression in prefix notation
    returns the value the expression stands for, and whatever nodes
    follow the expression in the tree are not looked at. *)
Theorem evaluate_prefix
        (F : PolishNotation.Arithmetic) (e : expr F)
        (rest : list (PolishNotation.Node F)) (fuel : nat) :
  depth (shape e) <= S fuel ->
  PolishNotation.evaluate F fuel (prefix_nodes e ++ rest) = Some (denote e).
Proof. apply evaluate_prefix_nodes. Qed.

Lemma evaluate_prefix_witness :
  PolishNotation.evaluate PolishNotation.integers 2
    (prefix_nodes MainExpressions.tree1
     ++ [PolishNotation.Number (F := PolishNotation.integers) 7%Z])
  = Some 11%Z.
Proof.
  apply (evaluate_prefix PolishNotation.integers MainExpressions.tree1
           [PolishNotation.Number (F := PolishNotation.integers) 7%Z] 2).
  simpl. lia.
Defined.

(** X14: [parse_expression] on the tokens of an expression in prefix
    notation, separated by whitespace, returns the nodes of the
    expression in the same order, when [strtod] reads each literal whole
    and reads no token of an operation as a number. *)
Theorem parse_expression_prefix
        (F : PolishNotation.Arithmetic) (e : expr F)
        (lead sep trail : list Ascii.ascii) :
  operations_apart F ->
  literals_read e ->
  forallb is_space lead = true ->
  is_separator sep = true ->
  forallb is_space trail = true ->
  PolishNotation.parse_expression F
    (lead ++ unwords sep (prefix_tokens e) ++ trail)
  = Some (prefix_nodes e).
Proof. apply parse_prefix_tokens. Qed.

(** X15: end to end, [evaluate] on the text of an expression in prefix
    notation returns the value the expression stands for, under the same
    conditions on [strtod] and with a recursion budget of the depth of
    the expression. *)
Theorem evaluate_expression_prefix
        (F : PolishNotation.Arithmetic) (e : expr F)
        (lead sep trail : list Ascii.ascii) (fuel : nat) :
  operations_apart F ->
  literals_read e ->
  forallb is_space lead = true ->
  is_separator sep = true ->
  forallb is_space trail = true ->
  depth (shape e) <= S fuel ->
  PolishNotation.evaluate_expression F fuel
    (lead ++ unwords sep (prefix_tokens e) ++ trail)
  = Some (denote e).
Proof.
  intros Hapart Hread Hlead Hsep Htrail Hdepth.
  unfold PolishNotation.evaluate_expression.
  rewrite (parse_prefix_tokens F e lead sep trail Hapart Hread Hlead Hsep
             Htrail).
  rewrite <- (app_nil_r (prefix_nodes e)).
  now apply evaluate_prefix_nodes.
Qed.

Lemma integers_operations_apart : operations_apart PolishNotation.integers.
Proof.
  intros token Hin. simpl in Hin.
  destruct Hin as [<-|[<-|[<-|[<-|[<-|[<-|[]]]]]]]; discriminate.
Qed.

Lemma parse_expression_prefix_witness :
  PolishNotation.parse_expression PolishNotation.integers
    PolishNotation.expression1
  = Some (prefix_nodes MainExpressions.tree1).
Proof.
  apply (parse_expression_prefix PolishNotation.integers
           MainExpressions.tree1 [] PolishNotation.blank []).
  - exact integers_operations_apart.
  - simpl. repeat split; reflexivity.
  - reflexivity.
  - reflexivity.
  - reflexivity.
Defined.

Lemma evaluate_expression_prefix_witness :
  PolishNotation.evaluate_expression PolishNotation.integers 3
    PolishNotation.expression2
  = Some 5%Z.
Proof.
  apply (evaluate_expression_prefix PolishNotation.integers
           MainExpressions.tree2 [] PolishNotation.blank [] 3).
  - exact integers_operations_apart.
  - simpl. repeat split; reflexivity.
  - reflexivity.
  - reflexivity.
  - reflexivity.
  - simpl. lia.
Defined.

(** ** Expressions that have no value *)

Lemma evaluate_empty (F : PolishNotation.Arithmetic) (fuel : nat) :
  PolishNotation.evaluate F fuel [] = None.
Proof.
  unfold PolishNotation.evaluate, evaluationTraversal,
    evaluationTraversal_run, bind.
  now rewrite recursiveTraversal_unfold.
Qed.

(** X16: an expression of whitespace alone, the empty one included,
    parses to the empty tree, and [evaluate] on the empty tree has no
    result: its root handle is the end of the tree, which the traversal
    dereferences. *)
Theorem evaluate_expression_blank
        (F : PolishNotation.Arithmetic) (fuel : nat)
        (str : list Ascii.ascii) :
  forallb is_space str = true ->
  PolishNotation.parse_expression F str = Some []
  /\ PolishNotation.evaluate F fuel [] = None
  /\ PolishNotation.evaluate_expression F fuel str = None.
Proof.
  intros Hblank.
  assert (Hparse : PolishNotation.parse_expression F str = Some []).
  { unfold PolishNotation.parse_expression.
    pose proof (split_tokens_unwords_all str PolishNotation.blank [] []
                  Hblank eq_refl eq_refl (Forall_nil _)) as Hsplit.
    simpl in Hsplit. rewrite app_nil_r in Hsplit. now rewrite Hsplit. }
  split; [exact Hparse|]. split.
  - apply evaluate_empty.
  - unfold PolishNotation.evaluate_expression. rewrite Hparse.
    apply evaluate_empty.
Qed.

Lemma evaluate_expression_blank_witness :
  PolishNotation.parse_expression PolishNotation.integers
    (PolishNotation.blank ++ PolishNotation.blank)
  = Some []
  /\ PolishNotation.evaluate PolishNotation.integers 5 [] = None
  /\ PolishNotation.evaluate_expression PolishNotation.integers 5
       (PolishNotation.blank ++ PolishNotation.blank)
     = None.
Proof.
  apply (evaluate_expression_blank PolishNotation.integers 5
           (PolishNotation.blank ++ PolishNotation.blank)).
  reflexivity.
Defined.




(** ** What a traversal that returns has walked *)

Section FindsTree.
Variable getChildrenCount : iterator -> option size_t.
Hypothesis counts_unsigned :
  forall h c, getChildrenCount h = Some c -> (0 <= c)%Z.
Context {Value State : Type}.
Variable value_init : Value.
Variable func : iterator -> list Value -> State -> option (Value * State).

Lemma evaluate_children_find (fuel : nat) :
  (forall n st next st',
      evaluate_node getChildrenCount value_init func fuel n st
      = Some (next, st') ->
      exists t,
        flattened_at getChildrenCount n t = true
        /\ next = n + size t /\ depth t <= fuel) ->
  forall k p st next st',
    recursiveTraversal_loop
      (evaluate_node getChildrenCount value_init func fuel) k p st
    = Some (next, st') ->
    exists cs,
      length cs = k
      /\ forest_flattened_at getChildrenCount p cs = true
      /\ next = p + forest_size cs
      /\ list_max (map depth cs) <= fuel.
Proof.
  intros IH. induction k as [|k IHk]; intros p st next st'.
  - intros [= <- _]. exists []. unfold forest_size. simpl.
    repeat split; lia.
  - rewrite recursiveTraversal_loop_cons.
    destruct (evaluate_node getChildrenCount value_init func fuel p st)
      as [[p' st1]|] eqn:Hchild; [|discriminate].
    intros Hrest.
    destruct (IH _ _ _ _ Hchild) as (t & Ht & -> & Hdt).
    destruct (IHk _ _ _ _ Hrest) as (cs & Hlen & Hcs & -> & Hdcs).
    exists (t :: cs). rewrite forest_size_cons. simpl length. simpl map.
    simpl list_max. repeat split.
    + now rewrite Hlen.
    + apply forest_flattened_at_cons. now split.
    + lia.
    + lia.
Qed.

Lemma recursiveTraversal_finds (fuel : nat) (n : iterator)
      (st : list Value * State) (next : iterator)
      (st' : list Value * State) :
  (forall n st next st',
      evaluate_node getChildrenCount value_init func fuel n st
      = Some (next, st') ->
      exists t,
        flattened_at getChildrenCount n t = true
        /\ next = n + size t /\ depth t <= fuel) ->
  recursiveTraversal getChildrenCount
    (evaluate_node getChildrenCount value_init func fuel) n st
  = Some (next, st') ->
  exists t,
    flattened_at getChildrenCount n t = true
    /\ next = n + size t /\ depth t <= S fuel.
Proof.
  intros IH. rewrite recursiveTraversal_unfold.
  destruct (getChildrenCount n) as [c|] eqn:Hcount; [|discriminate].
  intros Hloop.
  destruct (evaluate_children_find fuel IH _ _ _ _ _ Hloop)
    as (cs & Hlen & Hcs & -> & Hdepth).
  exists (Node cs). repeat split.
  - apply flattened_at_Node. split; [|exact Hcs].
    rewrite Hcount, Hlen, Z2Nat.id; [reflexivity|].
    now apply (counts_unsigned n).
  - rewrite size_Node. lia.
  - rewrite depth_Node. lia.
Qed.

Lemma evaluate_node_finds (fuel : nat) :
  forall n st next st',
    evaluate_node getChildrenCount value_init func fuel n st
    = Some (next, st') ->
    exists t,
      flattened_at getChildrenCount n t = true
      /\ next = n + size t /\ depth t <= fuel.
Proof.
  induction fuel as [|fuel IH]; intros n [vs s] next st'; [discriminate|].
  rewrite evaluate_node_step.
  destruct (recursiveTraversal _ _ _ _) as [[next0 [values s1]]|] eqn:Hrun;
    [|discriminate].
  destruct (func n _ s1) as [[r s2]|]; [|discriminate].
  intros [= <- _]. now apply (recursiveTraversal_finds fuel n _ _ _ IH Hrun).
Qed.

Lemma evaluationTraversal_finds (fuel : nat) (root : iterator) (s : State)
      (v : Value) (next : iterator) (s' : State) :
  evaluationTraversal getChildrenCount value_init func fuel root s
  = Some ((v, next), s') ->
  exists t,
    flattened_at getChildrenCount root t = true
    /\ next = root + size t /\ depth t <= S fuel.
Proof.
  unfold evaluationTraversal, evaluationTraversal_run, bind.
  destruct (recursiveTraversal _ _ _ _) as [[next0 [values s1]]|] eqn:Hrun;
    [|discriminate].
  unfold call_evaluator, ret.
  destruct (func root _ s1) as [[r s2]|]; [|discriminate].
  intros [= _ <- _].
  now apply (recursiveTraversal_finds fuel root _ _ _
               (evaluate_node_finds fuel) Hrun).
Qed.
End FindsTree.

(** X18: whenever [evaluationTraversal] returns, with an oracle whose
    counts are unsigned, the entries from the root on are the flattening
    of a tree, no deeper than the recursion went, and the handle returned
    is the one past that tree: on a sequence that flattens no tree at the
    root the traversal does not return. *)
Theorem evaluationTraversal_finds_tree
        (getChildrenCount : iterator -> option size_t)
        {Value State : Type} (value_init : Value)
        (func : iterator -> list Value -> State -> option (Value * State))
        (fuel : nat) (root : iterator) (s : State)
        (v : Value) (next : iterator) (s' : State) :
  (forall h c, getChildrenCount h = Some c -> (0 <= c)%Z) ->
  evaluationTraversal getChildrenCount value_init func fuel root s
  = Some ((v, next), s') ->
  exists t,
    flattened_at getChildrenCount root t = true
    /\ next = root + size t /\ depth t <= S fuel.
Proof.
  intros Hunsigned. now apply evaluationTraversal_finds.
Qed.

Lemma to_size_t_unsigned (z : Z) : (0 <= to_size_t z)%Z.
Proof.
  unfold to_size_t. apply Z.mod_pos_bound. now rewrite SIZE_MODULUS_value.
Qed.

Lemma EntryTraits_unsigned (h : iterator) (c : size_t) :
  Fixture.EntryTraits.getChildrenCount h = Some c -> (0 <= c)%Z.
Proof.
  unfold Fixture.EntryTraits.getChildrenCount.
  destruct (nth_error Fixture.entries h) as [[name sz|name nb]|];
    [intros [= <-]; lia|intros [= <-]; apply to_size_t_unsigned|discriminate].
Qed.

Lemma evaluationTraversal_finds_tree_witness :
  exists t,
    flattened_at Fixture.EntryTraits.getChildrenCount 0 t = true
    /\ 7 = 0 + size t /\ depth t <= 4.
Proof.
  apply (evaluationTraversal_finds_tree Fixture.EntryTraits.getChildrenCount
           0%Z Fixture.sum_of_sizes 3 0 tt 1500%Z 7 tt).
  - exact EntryTraits_unsigned.
  - reflexivity.
Defined.

(** ** One tree at most *)

Lemma forest_flattened_defined
      (getChildrenCount : iterator -> option size_t) (cs : list tree) :
  Forall (fun t => forall n,
              flattened_at getChildrenCount n t = true ->
              forall h, n <= h < n + size t -> getChildrenCount h <> None)
         cs ->
  forall p,
    forest_flattened_at getChildrenCount p cs = true ->
    forall h, p <= h < p + forest_size cs -> getChildrenCount h <> None.
Proof.
  induction 1 as [|c cs Hc _ IH]; intros p Hflat h Hh.
  - unfold forest_size in Hh. simpl in Hh. lia.
  - apply forest_flattened_at_cons in Hflat as [Hfc Hfcs].
    rewrite forest_size_cons in Hh.
    destruct (le_lt_dec (p + size c) h) as [Hright|Hleft].
    + apply (IH _ Hfcs). lia.
    + apply (Hc _ Hfc). lia.
Qed.

(** The oracle is defined at every entry of a tree it describes. *)
Lemma flattened_defined
      (getChildrenCount : iterator -> option size_t) (t : tree) :
  forall n,
    flattened_at getChildrenCount n t = true ->
    forall h, n <= h < n + size t -> getChildrenCount h <> None.
Proof.
  induction t as [cs IH] using tree_induction. intros n Hflat h Hh.
  apply flattened_at_Node in Hflat as [Hcount Hcs].
  destruct (Nat.eq_dec h n) as [->|Hne]; [now rewrite Hcount|].
  apply (forest_flattened_defined getChildrenCount cs IH (S n) Hcs).
  rewrite size_Node in Hh. lia.
Qed.

Lemma forest_flattened_unique
      (oracle1 oracle2 : iterator -> option size_t) (cs1 : list tree) :
  Forall (fun t1 => forall n t2,
              flattened_at oracle1 n t1 = true ->
              flattened_at oracle2 n t2 = true ->
              t1 = t2) cs1 ->
  forall p cs2,
    length cs1 = length cs2 ->
    forest_flattened_at oracle1 p cs1 = true ->
    forest_flattened_at oracle2 p cs2 = true ->
    cs1 = cs2.
Proof.
  induction 1 as [|c1 cs1 Hc _ IH]; intros p [|c2 cs2] Hlen H1 H2;
    try discriminate; [reflexivity|].
  apply forest_flattened_at_cons in H1 as [Hc1 Hcs1].
  apply forest_flattened_at_cons in H2 as [Hc2 Hcs2].
  pose proof (Hc _ _ Hc1 Hc2) as <-.
  f_equal. apply (IH (p + size c1)); [now injection Hlen|exact Hcs1|exact Hcs2].
Qed.

(** Two oracles, the second defined wherever the first is and equal to
    it there, describe the same tree at a handle. *)
Lemma flattened_unique (oracle1 oracle2 : iterator -> option size_t) :
  (forall h c, oracle1 h = Some c -> oracle2 h = Some c) ->
  forall t1 n t2,
    flattened_at oracle1 n t1 = true ->
    flattened_at oracle2 n t2 = true ->
    t1 = t2.
Proof.
  intros Hextends t1. induction t1 as [cs1 IH] using tree_induction.
  intros n [cs2] H1 H2.
  apply flattened_at_Node in H1 as [Hcount1 Hcs1].
  apply flattened_at_Node in H2 as [Hcount2 Hcs2].
  apply Hextends in Hcount1. rewrite Hcount1 in Hcount2.
  injection Hcount2 as Hlen. apply Nat2Z.inj in Hlen.
  f_equal.
  now apply (forest_flattened_unique oracle1 oracle2 cs1 IH (S n)).
Qed.

Lemma getChildrenCount_firstn (F : PolishNotation.Arithmetic)
      (tree : list (PolishNotation.Node F)) (k : nat) (h : iterator)
      (c : size_t) :
  PolishNotation.getChildrenCount (firstn k tree) h = Some c ->
  h < k /\ PolishNotation.getChildrenCount tree h = Some c.
Proof.
  unfold PolishNotation.getChildrenCount.
  destruct (le_lt_dec k h) as [Hge|Hlt].
  - rewrite (proj2 (nth_error_None (firstn k tree) h)); [discriminate|].
    rewrite length_firstn. lia.
  - rewrite nth_error_firstn.
    destruct (Nat.ltb_spec h k) as [_|Hge]; [|lia].
    now split.
Qed.

Lemma PolishNotation_unsigned (F : PolishNotation.Arithmetic)
      (tree : list (PolishNotation.Node F)) (h : iterator) (c : size_t) :
  PolishNotation.getChildrenCount tree h = Some c -> (0 <= c)%Z.
Proof.
  unfold PolishNotation.getChildrenCount.
  destruct (nth_error tree h); [|discriminate].
  intros [= <-]. apply to_size_t_unsigned.
Qed.

(** X19: an expression in prefix notation cut short, with any number of
    its last nodes missing, has no value: the traversal runs into the end
    of the tree while operands are still owed. *)
Theorem evaluate_truncated
        (F : PolishNotation.Arithmetic) (e : expr F) (k fuel : nat) :
  k < length (prefix_nodes e) ->
  PolishNotation.evaluate F fuel (firstn k (prefix_nodes e)) = None.
Proof.
  intros Hk. unfold PolishNotation.evaluate.
  destruct (evaluationTraversal _ _ _ fuel 0 tt) as [[[v next] s']|] eqn:Hrun;
    [|reflexivity].
  exfalso.
  apply evaluationTraversal_finds in Hrun as (t & Ht & _ & _);
    [|apply PolishNotation_unsigned].
  assert (Hshape : t = shape e).
  { apply (flattened_unique
             (PolishNotation.getChildrenCount (firstn k (prefix_nodes e)))
             (PolishNotation.getChildrenCount (prefix_nodes e))) with (n := 0).
    - intros h c Hc. now apply getChildrenCount_firstn in Hc.
    - exact Ht.
    - pose proof (prefix_nodes_flattened F e [] []) as Hfull.
      simpl in Hfull. now rewrite app_nil_r in Hfull. }
  subst t.
  pose proof (flattened_defined _ _ 0 Ht (length (prefix_nodes e) - 1))
    as Hdefined.
  rewrite size_shape in Hdefined.
  destruct (PolishNotation.getChildrenCount (firstn k (prefix_nodes e))
              (length (prefix_nodes e) - 1)) as [c|] eqn:Hlast.
  - apply getChildrenCount_firstn in Hlast. lia.
  - apply Hdefined; [lia|reflexivity].
Qed.

Lemma evaluate_truncated_witness :
  PolishNotation.evaluate PolishNotation.integers 3
    (firstn 6 (prefix_nodes MainExpressions.tree1))
  = None.
Proof.
  apply (evaluate_truncated PolishNotation.integers MainExpressions.tree1
           6 3).
  simpl. lia.
Defined.
